(** * go-cast, package net: payload headers and the Channel multiplexer

    A shallow embedding of [PayloadHeaders] and of [Channel], which
    correlates requests with their replies and fans inbound messages out to
    listeners over one cast connection, followed by the properties of the
    dispatch algorithm.

    [Request] and [Message] run in goroutines.  Each is cut at its accesses
    to shared state (the atomic counter, the table under its mutex, the
    reply channel, the context), and a schedule interleaves the pieces; the
    unbuffered reply channel is a rendezvous between the send of [Message]
    and the select of [Request].  What the code calls on its environment
    (the payload, the connection, the logger, the listener callbacks) is
    recorded as a trace of events.

    Go's [int] is taken at its 64-bit width; [int64] arithmetic wraps.
    Strings are [string], with the empty string for Go's zero value (an
    omitted JSON field).  A [*int] that may be nil is an [option Z].

    The command line tool of [cmd/cast/main.go] follows the Channel: how it
    checks a command and its arguments, and what it then calls on the
    client. *)

From stdpp Require Import gmap strings list sorting pretty.
From Stdlib Require Import ZArith Lia Floats Ascii.

Local Open Scope Z_scope.

(** ** Machine integers *)

Definition wrap (w z : Z) : Z := (z + 2 ^ (w - 1)) mod 2 ^ w - 2 ^ (w - 1).

Definition int_bits : Z := 64.
Definition max_int64 : Z := 2 ^ 63 - 1.

(** [atomic.AddInt64(&x, d)] stores and returns the wrapped sum. *)
Definition AddInt64 (x d : Z) : Z := wrap 64 (x + d).

(** The conversion [int(v)] of an [int64] value. *)
Definition to_int (v : Z) : Z := wrap int_bits v.

(** ** Outcomes of fallible code *)

Inductive panic := NilDereference.

Inductive outcome (A : Type) :=
| Returns (a : A)
| Panics (p : panic).
Arguments Returns {A} a.
Arguments Panics {A} p.

(** ** PayloadHeaders *)

Record PayloadHeaders := {
  Type_ : string;
  ResponseType : string;
  RequestId : option Z
}.

(** [func (h *PayloadHeaders) setRequestId(id int)]: the receiver is updated
    in place; here the updated value is returned. *)
Definition PayloadHeaders_setRequestId (id : Z) (h : PayloadHeaders) : PayloadHeaders :=
  {| Type_ := Type_ h; ResponseType := ResponseType h; RequestId := Some id |}.

(** [func (h *PayloadHeaders) getRequestId() int] dereferences the field. *)
Definition PayloadHeaders_getRequestId (h : PayloadHeaders) : outcome Z :=
  match RequestId h with
  | Some id => Returns id
  | None => Panics NilDereference
  end.

(** The [Payload] interface. *)
Class Payload (P : Type) := {
  setRequestId : Z → P → P;
  getRequestId : P → outcome Z
}.

#[export] Instance PayloadHeaders_Payload : Payload PayloadHeaders := {|
  setRequestId := PayloadHeaders_setRequestId;
  getRequestId := PayloadHeaders_getRequestId
|}.

(** ** Wire messages *)

(** Modelled from the spec: the declaration of [api.CastMessage] is not
    among the sources.  The spec's wire message is
    [{protocol_version, source_id, destination_id, namespace, payload_type,
    payload}]; the string fields the dispatcher dereferences are required
    fields of the protocol and are taken as present. *)
Module api.
Inductive payload :=
| PayloadUtf8 (text : string)
| PayloadBinary (bytes : list Z).

Record CastMessage := {
  ProtocolVersion : Z;
  SourceId : string;
  DestinationId : string;
  Namespace : string;
  Body : payload
}.
End api.

(** ** Errors *)

(** [ctx.Err()] is one of the two context errors; a failed write of the
    connection carries its own description. *)
Inductive error :=
| Canceled
| DeadlineExceeded
| IOError (description : string).

(** ** The Channel and its goroutines *)

(** A [chan *api.CastMessage] is named by the goroutine that made it:
    every [Request] call makes exactly one channel and is the only
    goroutine that ever receives from it. *)
Abbreviation chan := nat (only parsing).

Section Net.
(** [P] is the dynamic type behind the [Payload] interface and [Callback]
    the type of listener function values. *)
Context {P : Type} `{!Payload P} {Callback : Type}.

Record channelListener := {
  responseType : string;
  callback : Callback
}.

(** [conn] belongs to the environment: the result of its write is an input
    of the step that calls it.  The mutex is in the granularity of the
    steps: every critical section is one step. *)
Record Channel := {
  sourceId : string;
  DestinationId : string;
  namespace : string;
  requestId : Z;
  inFlight : gmap Z chan;
  listeners : list channelListener
}.

Definition NewChannel (sourceId destinationId namespace : string) : Channel :=
  {| sourceId := sourceId;
     DestinationId := destinationId;
     namespace := namespace;
     requestId := 0;
     inFlight := ∅;
     listeners := [] |}.

Definition set_requestId (v : Z) (c : Channel) : Channel :=
  {| sourceId := sourceId c; DestinationId := DestinationId c;
     namespace := namespace c; requestId := v;
     inFlight := inFlight c; listeners := listeners c |}.

Definition set_inFlight (t : gmap Z chan) (c : Channel) : Channel :=
  {| sourceId := sourceId c; DestinationId := DestinationId c;
     namespace := namespace c; requestId := requestId c;
     inFlight := t; listeners := listeners c |}.

Definition set_listeners (ls : list channelListener) (c : Channel) : Channel :=
  {| sourceId := sourceId c; DestinationId := DestinationId c;
     namespace := namespace c; requestId := requestId c;
     inFlight := inFlight c; listeners := ls |}.

(** What the Channel code calls on its environment, in program order. *)
Inductive event :=
| EvSetRequestId (id : Z)
| EvConnSend (payload : P) (sourceId destinationId namespace : string)
| EvLogErrorf (headers : PayloadHeaders) (message : api.CastMessage)
| EvCallback (cb : Callback) (message : api.CastMessage).

(** *** Message: the guards of lines 62 and 66 *)

Definition neqb (a b : string) : bool := negb (String.eqb a b).

(** Line 62: the condition under which [Message] returns at once. *)
Definition misaddressed (c : Channel) (message : api.CastMessage) : bool :=
  neqb (api.DestinationId message) "*" &&
  (neqb (api.SourceId message) (DestinationId c) ||
   neqb (api.DestinationId message) (sourceId c) ||
   neqb (api.Namespace message) (namespace c)).

(** Line 66. *)
Definition untyped (headers : PayloadHeaders) : bool :=
  String.eqb (Type_ headers) "" && String.eqb (ResponseType headers) "".

(** Line 71: [Some r] when the header carries a nonzero requestId. *)
Definition correlated (headers : PayloadHeaders) : option Z :=
  match RequestId headers with
  | Some r => if negb (r =? 0) then Some r else None
  | None => None
  end.

(** *** Message: the listener loop of lines 85-89 *)

(** Line 86. *)
Definition listens (l : channelListener) (headers : PayloadHeaders) : bool :=
  String.eqb (responseType l) (Type_ headers) ||
  (neqb (ResponseType headers) "" &&
   String.eqb (responseType l) (ResponseType headers)).

Fixpoint fanout (ls : list channelListener) (message : api.CastMessage)
    (headers : PayloadHeaders) : list event :=
  match ls with
  | [] => []
  | listener :: rest =>
      if listens listener headers
      then EvCallback (callback listener) message :: fanout rest message headers
      else fanout rest message headers
  end.

(** *** OnMessage, line 93 *)
Definition OnMessage (responseType : string) (cb : Callback) (c : Channel) : Channel :=
  set_listeners (listeners c ++ [{| responseType := responseType; callback := cb |}]) c.

(** *** Send, line 97: the call handed to the connection *)
Definition Send (payload : P) (c : Channel) : event :=
  EvConnSend payload (sourceId c) (DestinationId c) (namespace c).

(** *** Goroutines

    A goroutine runs [Request] or [Message]; its program point names the
    source line it executes next.  A step runs from one access of shared
    state (the counter, the table, a channel, the context) to the next;
    what lies between is local to the goroutine and is part of the step of
    the access before it.  So the call of [setRequestId] is recorded with
    the atomic increment that issued its argument. *)
Inductive request_pc :=
| RCalled                        (* line 101 is next *)
| RInsert                        (* lines 106-108 are next *)
| RSend                          (* line 110 is next *)
| RSendFailed (err : error)      (* lines 112-116 are next *)
| RSelect                        (* blocked in the select of line 119 *)
| RCancelled                     (* lines 123-127 are next *)
| RReturned (reply : option api.CastMessage) (err : option error).

Inductive message_pc :=
| MCalled                        (* line 62 is next *)
| MSend (r : Z) (listener : chan) (* blocked in the send of line 77 *)
| MDelete (r : Z)                (* lines 79-81 are next *)
| MRange                         (* lines 85-89 are next *)
| MReturned.

Inductive goroutine :=
| GoRequest (ctx : nat) (payload : P) (id : Z) (pc : request_pc)
| GoMessage (message : api.CastMessage) (headers : PayloadHeaders) (pc : message_pc).

(** [done] holds the contexts whose [Done()] channel is closed, with the
    value of their [Err()]. *)
Record system := {
  channel : Channel;
  goroutines : list goroutine;
  done : gmap nat error
}.

Definition boot (c : Channel) : system :=
  {| channel := c; goroutines := []; done := ∅ |}.

Definition update (g : nat) (th : goroutine) (c : Channel) (s : system) : system :=
  {| channel := c; goroutines := <[g := th]> (goroutines s); done := done s |}.

Definition with_channel (c : Channel) (s : system) : system :=
  {| channel := c; goroutines := goroutines s; done := done s |}.

Definition go (th : goroutine) (s : system) : system :=
  {| channel := channel s; goroutines := goroutines s ++ [th]; done := done s |}.

(** *** Request, between its blocking points *)
Definition Request_run (g : nat) (ctx : nat) (payload : P) (id : Z) (pc : request_pc)
    (s : system) : option (system * list event) :=
  let c := channel s in
  match pc with
  | RCalled =>
      let v := AddInt64 (requestId c) 1 in
      let id := to_int v in
      Some (update g (GoRequest ctx (setRequestId id payload) id RInsert)
                   (set_requestId v c) s,
            [EvSetRequestId id])
  | RInsert =>
      Some (update g (GoRequest ctx payload id RSend)
                   (set_inFlight (<[id := g]> (inFlight c)) c) s, [])
  | RSendFailed err =>
      Some (update g (GoRequest ctx payload id (RReturned None (Some err)))
                   (set_inFlight (delete id (inFlight c)) c) s, [])
  | RCancelled =>
      Some (update g (GoRequest ctx payload id (RReturned None (done s !! ctx)))
                   (set_inFlight (delete id (inFlight c)) c) s, [])
  | RSend | RSelect | RReturned _ _ => None
  end.

(** *** Message, between its blocking points *)

(** Lines 71-76: where [Message] goes after the guards, on what the table
    holds under the lock. *)
Definition Message_lookup (c : Channel) (headers : PayloadHeaders) : message_pc :=
  match correlated headers with
  | Some r =>
      match inFlight c !! r with
      | Some listener => MSend r listener
      | None => MRange
      end
  | None => MRange
  end.

Definition Message_run (g : nat) (message : api.CastMessage) (headers : PayloadHeaders)
    (pc : message_pc) (s : system) : option (system * list event) :=
  let c := channel s in
  match pc with
  | MCalled =>
      if misaddressed c message then
        Some (update g (GoMessage message headers MReturned) c s, [])
      else if untyped headers then
        Some (update g (GoMessage message headers MReturned) c s,
              [EvLogErrorf headers message])
      else
        Some (update g (GoMessage message headers (Message_lookup c headers)) c s, [])
  | MDelete r =>
      Some (update g (GoMessage message headers MRange)
                   (set_inFlight (delete r (inFlight c)) c) s, [])
  | MRange =>
      Some (update g (GoMessage message headers MReturned) c s,
            fanout (listeners c) message headers)
  | MSend _ _ | MReturned => None
  end.

(** *** The moves of the scheduler and of the environment *)
Inductive ctx_signal := Cancel | Deadline.

Definition ctx_err (sig : ctx_signal) : error :=
  match sig with Cancel => Canceled | Deadline => DeadlineExceeded end.

Inductive label :=
| CallRequest (ctx : nat) (payload : P)   (* a goroutine enters c.Request(ctx, payload) *)
| CallMessage (message : api.CastMessage) (headers : PayloadHeaders)
                                          (* a goroutine enters c.Message(message, headers) *)
| CallOnMessage (responseType : string) (cb : Callback)
| CallSend (payload : P) (result : option error)
| CtxDone (ctx : nat) (sig : ctx_signal)  (* the context is cancelled or its deadline passes *)
| Run (g : nat)                           (* g runs to its next blocking point *)
| ConnSend (g : nat) (result : option error)
                                          (* g's c.Send(payload) of line 110 returns *)
| Handoff (g : nat)                       (* g's send of line 77 meets the receive of line 120 *)
| SelectDone (g : nat).                   (* g's select takes the case of line 122 *)

Definition step (l : label) (s : system) : option (system * list event) :=
  match l with
  | CallRequest ctx payload => Some (go (GoRequest ctx payload 0 RCalled) s, [])
  | CallMessage message headers => Some (go (GoMessage message headers MCalled) s, [])
  | CallOnMessage responseType cb =>
      Some (with_channel (OnMessage responseType cb (channel s)) s, [])
  | CallSend payload _ => Some (s, [Send payload (channel s)])
  | CtxDone ctx sig =>
      match done s !! ctx with
      | Some _ => Some (s, [])
      | None => Some ({| channel := channel s; goroutines := goroutines s;
                         done := <[ctx := ctx_err sig]> (done s) |}, [])
      end
  | Run g =>
      match goroutines s !! g with
      | Some (GoRequest ctx payload id pc) => Request_run g ctx payload id pc s
      | Some (GoMessage message headers pc) => Message_run g message headers pc s
      | None => None
      end
  | ConnSend g result =>
      match goroutines s !! g with
      | Some (GoRequest ctx payload id RSend) =>
          let pc := match result with Some err => RSendFailed err | None => RSelect end in
          Some (update g (GoRequest ctx payload id pc) (channel s) s,
                [Send payload (channel s)])
      | _ => None
      end
  | Handoff g =>
      match goroutines s !! g with
      | Some (GoMessage message headers (MSend r listener)) =>
          match goroutines s !! listener with
          | Some (GoRequest ctx payload id RSelect) =>
              Some (update g (GoMessage message headers (MDelete r)) (channel s)
                      (update listener
                         (GoRequest ctx payload id (RReturned (Some message) None))
                         (channel s) s), [])
          | _ => None
          end
      | _ => None
      end
  | SelectDone g =>
      match goroutines s !! g with
      | Some (GoRequest ctx payload id RSelect) =>
          match done s !! ctx with
          | Some _ => Some (update g (GoRequest ctx payload id RCancelled) (channel s) s, [])
          | None => None
          end
      | _ => None
      end
  end.

(** A schedule is run from left to right; the events are collected in
    order.  [None]: some move of the schedule was not enabled. *)
Fixpoint run (sched : list label) (s : system) : option (system * list event) :=
  match sched with
  | [] => Some (s, [])
  | l :: rest =>
      match step l s with
      | Some (s1, evs1) =>
          match run rest s1 with
          | Some (s2, evs2) => Some (s2, evs1 ++ evs2)
          | None => None
          end
      | None => None
      end
  end.

(** The requestIds handed to [setRequestId], in the order of the calls. *)
Fixpoint stamped (evs : list event) : list Z :=
  match evs with
  | [] => []
  | EvSetRequestId id :: rest => id :: stamped rest
  | _ :: rest => stamped rest
  end.

(** The callbacks invoked, in the order of the calls. *)
Fixpoint invoked (evs : list event) : list (Callback * api.CastMessage) :=
  match evs with
  | [] => []
  | EvCallback cb message :: rest => (cb, message) :: invoked rest
  | _ :: rest => invoked rest
  end.

(** *** States a Channel can be in *)

(** A system is reachable when some schedule of fewer than [2^63 - 1] moves
    leads to it from a Channel just made by [NewChannel]: the range in
    which the [int64] counter has not wrapped. *)
Definition reachable (s : system) : Prop :=
  ∃ sourceId destinationId namespace sched evs,
    run sched (boot (NewChannel sourceId destinationId namespace)) = Some (s, evs) ∧
    Z.of_nat (length sched) < max_int64.

(** The ids in use are among those the counter has issued. *)
Definition issued_ids (s : system) : Prop :=
  0 ≤ requestId (channel s) ∧
  (∀ k ch, inFlight (channel s) !! k = Some ch → 1 ≤ k ≤ requestId (channel s)) ∧
  (∀ g ctx payload id pc,
      goroutines s !! g = Some (GoRequest ctx payload id pc) →
      pc ≠ RCalled → 1 ≤ id ≤ requestId (channel s)).

(** The program points at which a [Request] may have its entry in the
    table: from the insert to its own delete, or until the dispatcher that
    handed it the reply deletes the entry. *)
Definition owns (pc : request_pc) : bool :=
  match pc with
  | RSend | RSendFailed _ | RSelect | RCancelled | RReturned (Some _) None => true
  | RCalled | RInsert | RReturned _ _ => false
  end.

(** Every entry of the table holds the channel of the [Request] that was
    issued its key, and that request is at a point where it may own it. *)
Definition table_owned (s : system) : Prop :=
  ∀ k ch, inFlight (channel s) !! k = Some ch →
    ∃ ctx payload pc,
      goroutines s !! ch = Some (GoRequest ctx payload k pc) ∧ owns pc = true.

(** No two requests were issued the same id. *)
Definition ids_distinct (s : system) : Prop :=
  ∀ g1 g2 ctx1 payload1 pc1 ctx2 payload2 pc2 id,
    goroutines s !! g1 = Some (GoRequest ctx1 payload1 id pc1) →
    goroutines s !! g2 = Some (GoRequest ctx2 payload2 id pc2) →
    pc1 ≠ RCalled → pc2 ≠ RCalled → g1 = g2.

Definition consistent (s : system) : Prop :=
  issued_ids s ∧ table_owned s ∧ ids_distinct s.

(** *** Complete calls

    The moves of one call that nothing interleaves with, made by a new
    goroutine [g]. *)
Definition Request_until_select (g ctx : nat) (payload : P) : list label :=
  [CallRequest ctx payload; Run g; Run g; ConnSend g None].

Definition Request_send_failing (g ctx : nat) (payload : P) (err : error) : list label :=
  [CallRequest ctx payload; Run g; Run g; ConnSend g (Some err)].

Definition Request_send_fails (g ctx : nat) (payload : P) (err : error) : list label :=
  Request_send_failing g ctx payload err ++ [Run g].

Definition Request_gives_up (g : nat) : list label :=
  [SelectDone g; Run g].

Definition Message_dropped (g : nat) (message : api.CastMessage)
    (headers : PayloadHeaders) : list label :=
  [CallMessage message headers; Run g].

Definition Message_uncorrelated (g : nat) (message : api.CastMessage)
    (headers : PayloadHeaders) : list label :=
  [CallMessage message headers; Run g; Run g].

Definition Message_correlated (g : nat) (message : api.CastMessage)
    (headers : PayloadHeaders) : list label :=
  [CallMessage message headers; Run g; Handoff g; Run g; Run g].

(** A send that can never complete: [gm] is blocked in line 77 on the
    channel of [gr], and [gr] has returned from [Request]. *)
Definition send_blocked (s : system) (gm gr : nat) (message : api.CastMessage)
    (headers : PayloadHeaders) (r : Z) : Prop :=
  goroutines s !! gm = Some (GoMessage message headers (MSend r gr)) ∧
  ∃ ctx payload id reply err,
    goroutines s !! gr = Some (GoRequest ctx payload id (RReturned reply err)).
End Net.

(** ** A receiver-status exchange

    The channel of the receiver namespace, with [PayloadHeaders] as payload
    and listeners named by numbers. *)
Module Demo.
Definition ns : string := "urn:x-cast:com.google.cast.receiver".

Definition c : @Channel nat := NewChannel "sender-0" "receiver-0" ns.

Definition GET_STATUS : PayloadHeaders :=
  {| Type_ := "GET_STATUS"; ResponseType := ""; RequestId := None |}.

Definition RECEIVER_STATUS (r : option Z) : PayloadHeaders :=
  {| Type_ := "RECEIVER_STATUS"; ResponseType := ""; RequestId := r |}.

Definition no_type : PayloadHeaders :=
  {| Type_ := ""; ResponseType := ""; RequestId := Some 1 |}.

Definition from_receiver : api.CastMessage :=
  {| api.ProtocolVersion := 0;
     api.SourceId := "receiver-0";
     api.DestinationId := "sender-0";
     api.Namespace := ns;
     api.Body := api.PayloadUtf8 "status" |}.

Definition broadcast : api.CastMessage :=
  {| api.ProtocolVersion := 0;
     api.SourceId := "Tr@n$p0rt-0";
     api.DestinationId := "*";
     api.Namespace := "urn:x-cast:com.google.cast.tp.heartbeat";
     api.Body := api.PayloadUtf8 "ping" |}.

(** One listener is registered. *)
Definition listening : list (@label PayloadHeaders nat) :=
  [CallOnMessage "RECEIVER_STATUS" 7%nat].

(** A listener is registered and a request waits for its reply. *)
Definition waiting : list (@label PayloadHeaders nat) :=
  listening ++ Request_until_select 0 0 GET_STATUS.

(** The reply is looked up, then the deadline passes and the select of
    [Request] takes the context's case. *)
Definition race : list (@label PayloadHeaders nat) :=
  waiting ++
  [CallMessage from_receiver (RECEIVER_STATUS (Some 1)); Run 1%nat;
   CtxDone 0 Deadline; SelectDone 0; Run 0%nat].


Definition after (sched : list (@label PayloadHeaders nat)) : @system PayloadHeaders nat :=
  match run sched (boot c) with
  | Some (s, _) => s
  | None => boot c
  end.

Definition trace (sched : list (@label PayloadHeaders nat)) : list (@event PayloadHeaders nat) :=
  match run sched (boot c) with
  | Some (_, evs) => evs
  | None => []
  end.
End Demo.

(** ** Calls that have not come to their end *)
Section Schedules.
Context {P : Type} `{!Payload P} {Callback : Type}.


(** [Request] up to its write, which has not returned yet. *)
Definition Request_until_send (g ctx : nat) (payload : P) : list (@label P Callback) :=
  [CallRequest ctx payload; Run g; Run g].

(** [Message] up to the send of line 77. *)
Definition Message_until_send (g : nat) (message : api.CastMessage)
    (headers : PayloadHeaders) : list (@label P Callback) :=
  [CallMessage message headers; Run g].
End Schedules.

(** ** Two requests at once *)
Module Session.
(** Two requests wait for their replies, and the context of the first is
    then done. *)
Definition first_expired : list (@label PayloadHeaders nat) :=
  Demo.waiting ++ Request_until_select 1 3 Demo.GET_STATUS ++ [CtxDone 0 Deadline].

(** A listener is registered and a context is cancelled before any request
    uses it. *)
Definition cancelled_early : list (@label PayloadHeaders nat) :=
  Demo.listening ++ [CtxDone 5 Cancel].

(** Three listeners, the first and the last of them for the status of the
    receiver. *)
Definition three_listening : list (@label PayloadHeaders nat) :=
  [CallOnMessage "RECEIVER_STATUS" 7%nat; CallOnMessage "MEDIA_STATUS" 8%nat;
   CallOnMessage "RECEIVER_STATUS" 9%nat].

(** The three listen and a request waits for its reply. *)
Definition three_waiting : list (@label PayloadHeaders nat) :=
  three_listening ++ Request_until_select 0 0 Demo.GET_STATUS.

(** The reply to request 1 arrives and [Message] looks its entry up; the
    deadline of the request then passes, and its select takes the case of
    the context before the send of line 77 is received. *)
Definition lookup_then_deadline : list (@label PayloadHeaders nat) :=
  [CallMessage Demo.from_receiver (Demo.RECEIVER_STATUS (Some 1)); Run 1%nat;
   CtxDone 0 Deadline; SelectDone 0; Run 0%nat].
End Session.

(** ** The command line tool, [cmd/cast/main.go]

    The tool checks a command and its arguments, connects, and runs the
    command on the client.  The client, the controllers, the resolver and
    the [log] package are not part of these sources: every call into them
    is recorded, and what it returns is asked of the environment.  The same
    holds for [strconv.ParseFloat] and for the [%.2f] verb of [fmt], which
    are taken as they are given.  [float64] is the binary64 of [PrimFloat].

    The context with its timeout is handed on to the client untouched and
    is left out of the calls.  [main], which declares the flags and the
    commands to the cli framework, and [statusCommand], which prints a
    status it gets from the receiver, are not embedded. *)
Module Main.

(** The newline of the format strings. *)
Definition nl : string := String (Ascii.ascii_of_nat 10) EmptyString.

(** [var minArgs] and [var maxArgs]. *)
Definition minArgs : gmap string Z :=
  <["play" := 1]> (<["pause" := 0]> (<["stop" := 0]> (<["quit" := 0]>
    (<["volume" := 1]> ∅)))).

Definition maxArgs : gmap string Z :=
  <["play" := 2]> (<["pause" := 0]> (<["stop" := 0]> (<["quit" := 0]>
    (<["volume" := 1]> ∅)))).

(** [m[k]]: the zero value when the key is missing. *)
Definition at_key (m : gmap string Z) (k : string) : Z := default 0 (m !! k).

(** [strings.Split(text, " ")]: the fields between the spaces, one more than
    there are spaces. *)
Fixpoint Split_space (text : string) : list string :=
  match text with
  | EmptyString => [EmptyString]
  | String a rest =>
      if Ascii.eqb a " "%char then EmptyString :: Split_space rest
      else match Split_space rest with
           | field :: fields => String a field :: fields
           | [] => [String a EmptyString]
           end
  end.

(** [controllers.MediaItem] and [controllers.Volume], by the fields the
    composite literals of [runCommand] set. *)
Record MediaItem := {
  ContentId : string;
  StreamType : string;
  ContentType : string
}.

Record Volume := {
  Level : option float;
  Muted : option bool
}.

(** [cli.Context], by the values the tool reads from it. *)
Record Context := {
  debug : bool;
  host : string;
  port : Z;
  Command_Name : string;
  Args : list string
}.

(** Calls into code outside this file. *)
Inductive call :=
| log_SetDebug (on : bool)              (* log.Debug = on *)
| log_Printf (text : string)
| log_Println (text : string)
| log_Fatalln (err : string)
| net_LookupIP (host : string)
| cast_NewClient (ip : string) (port : Z)
| client_Connect
| client_Media
| client_IsPlaying
| client_Receiver
| media_LoadMedia (item : MediaItem) (currentTime : Z) (autoplay : bool)
| media_Pause
| media_Stop
| receiver_SetVolume (volume : Volume)
| receiver_QuitApp.

(** What a call gives back; each call reads the part it returns.  For
    [log.Fatalln], [returns] tells whether it comes back at all. *)
Record reply := {
  err : option string;
  ips : list string;
  playing : bool;
  returns : bool
}.

Inductive event :=
| Printed (text : string)               (* fmt.Printf on standard output *)
| Called (c : call).

Inductive halt :=
| Fatal                                 (* log.Fatalln did not return *)
| IndexOutOfRange.                      (* a run-time panic *)

Section Environment.
(** [strconv.ParseFloat(val, 64)]: the value and the error. *)
Variable ParseFloat : string → float * option string.
(** The [%.2f] verb. *)
Variable Sprintf_2f : float → string.
(** The environment and its answers. *)
Variable World : Type.
Variable ask : call → World → reply * World.

Record state := {
  trace : list event;
  world : World
}.

Definition M (A : Type) : Type := state → (A + halt) * state.

Definition ret {A : Type} (a : A) : M A := λ st, (inl a, st).

Definition bind {A B : Type} (m : M A) (k : A → M B) : M B :=
  λ st, match m st with
        | (inl a, st') => k a st'
        | (inr h, st') => (inr h, st')
        end.

Definition stop {A : Type} (h : halt) : M A := λ st, (inr h, st).

Definition Printf (text : string) : M unit :=
  λ st, (inl tt, {| trace := trace st ++ [Printed text]; world := world st |}).

Definition calling (c : call) : M reply :=
  λ st, let '(r, w) := ask c (world st) in
        (inl r, {| trace := trace st ++ [Called c]; world := w |}).

(** [xs[i]] *)
Definition at_index {A : Type} (xs : list A) (i : nat) : M A :=
  match xs !! i with
  | Some x => ret x
  | None => stop IndexOutOfRange
  end.

(** [xs[i:]] *)
Definition from_index {A : Type} (xs : list A) (i : nat) : M (list A) :=
  if (length xs <? i)%nat then stop IndexOutOfRange else ret (drop i xs).

Notation "x ← m ; k" := (bind m (λ x, k))
  (at level 20, m at level 100, k at level 200, only parsing).
Notation "m ;; k" := (bind m (λ _, k))
  (at level 100, k at level 200, right associativity, only parsing).

Definition checkErr (e : option string) : M unit :=
  match e with
  | Some text =>
      r ← calling (log_Fatalln text);
      if returns r then ret tt else stop Fatal
  | None => ret tt
  end.

Definition validateFloat (val : string) (min max : float) : option string :=
  let '(fval, e) := ParseFloat val in
  match e with
  | Some _ => Some "Expected a number between 0.0 and 1.0"
  | None =>
      if (fval <? min)%float then
        Some ("Value is below minimum: " +:+ Sprintf_2f min)
      else if (max <? fval)%float then
        Some ("Value is below maximum: " +:+ Sprintf_2f max)
      else None
  end.

Definition checkCommand (cmd : string) (args : list string) : M bool :=
  match minArgs !! cmd with
  | None =>
      Printf ("Command '" +:+ cmd +:+ "' not understood" +:+ nl);; ret false
  | Some _ =>
      if Z.of_nat (length args) <? at_key minArgs cmd then
        Printf ("Command '" +:+ cmd +:+ "' requires at least " +:+
                pretty (at_key minArgs cmd) +:+ " argument(s)" +:+ nl);;
        ret false
      else if at_key maxArgs cmd <? Z.of_nat (length args) then
        Printf ("Command '" +:+ cmd +:+ "' takes at most " +:+
                pretty (at_key maxArgs cmd) +:+ " argument(s)" +:+ nl);;
        ret false
      else if String.eqb cmd "play" then ret true
      else if String.eqb cmd "volume" then
        a ← at_index args 0;
        match validateFloat a 0 1 with
        | Some text =>
            Printf ("Command '" +:+ cmd +:+ "': " +:+ text +:+ nl);; ret false
        | None => ret true
        end
      else ret true
  end.

Definition runCommand (cmd : string) (args : list string) : M unit :=
  if String.eqb cmd "play" then
    r ← calling client_Media;
    checkErr (err r);;
    url ← at_index args 0;
    contentType ← (if (1 <? length args)%nat then at_index args 1 else ret "audio/mpeg");
    r ← calling (media_LoadMedia
                   {| ContentId := url; StreamType := "BUFFERED";
                      ContentType := contentType |} 0 true);
    checkErr (err r)
  else if String.eqb cmd "pause" then
    r ← calling client_Media;
    checkErr (err r);;
    r ← calling media_Pause;
    checkErr (err r)
  else if String.eqb cmd "stop" then
    r ← calling client_IsPlaying;
    if negb (playing r) then ret tt
    else
      r ← calling client_Media;
      checkErr (err r);;
      r ← calling media_Stop;
      checkErr (err r)
  else if String.eqb cmd "volume" then
    _ ← calling client_Receiver;
    a ← at_index args 0;
    r ← calling (receiver_SetVolume
                   {| Level := Some (fst (ParseFloat a)); Muted := Some false |});
    checkErr (err r)
  else if String.eqb cmd "quit" then
    _ ← calling client_Receiver;
    r ← calling receiver_QuitApp;
    checkErr (err r)
  else
    Printf ("Command '" +:+ cmd +:+ "' not understood - ignored" +:+ nl).

Definition connect (c : Context) : M unit :=
  calling (log_Printf ("Looking up " +:+ host c +:+ "..."));;
  r ← calling (net_LookupIP (host c));
  checkErr (err r);;
  ip ← at_index (ips r) 0;
  calling (cast_NewClient ip (port c));;
  r ← calling client_Connect;
  checkErr (err r);;
  calling (log_Println "Connected");;
  ret tt.

Definition cliCommand (c : Context) : M unit :=
  calling (log_SetDebug (debug c));;
  ok ← checkCommand (Command_Name c) (Args c);
  if negb ok then ret tt
  else connect c;; runCommand (Command_Name c) (Args c).

(** The first loop of [scriptCommand]: [None] when a line is refused and
    the function returns, the commands read otherwise. *)
Fixpoint scan (lines : list string) (commands : list (list string))
    : M (option (list (list string))) :=
  match lines with
  | [] => ret (Some commands)
  | text :: rest =>
      let args := Split_space text in
      if (length args =? 0)%nat then scan rest commands
      else
        cmd ← at_index args 0;
        tail ← from_index args 1;
        ok ← checkCommand cmd tail;
        if negb ok then ret None
        else scan rest (commands ++ [args])
  end.

(** The second loop of [scriptCommand]. *)
Fixpoint run_all (commands : list (list string)) : M unit :=
  match commands with
  | [] => ret tt
  | args :: rest =>
      cmd ← at_index args 0;
      tail ← from_index args 1;
      runCommand cmd tail;;
      run_all rest
  end.

(** [stdin]: the text the scanner yields at each [Scan]. *)
Definition scriptCommand (c : Context) (stdin : list string) : M unit :=
  calling (log_SetDebug (debug c));;
  read ← scan stdin [];
  match read with
  | None => ret tt
  | Some commands => connect c;; run_all commands
  end.

(** *** What the theorems about the tool speak of *)

(** The commands and arguments that [checkCommand] lets through. *)
Definition accepted (cmd : string) (args : list string) : Prop :=
  (cmd = "play" ∧ (length args = 1 ∨ length args = 2)%nat) ∨
  ((cmd = "pause" ∨ cmd = "stop" ∨ cmd = "quit") ∧ args = []) ∨
  (cmd = "volume" ∧ ∃ a, args = [a] ∧ validateFloat a 0 1 = None).

(** A line of a script, by its first field and the fields after it. *)
Definition line_accepted (text : string) : Prop :=
  accepted (hd EmptyString (Split_space text)) (tail (Split_space text)).

(** [m] only adds calls to the trace and never indexes out of range. *)
Definition calls_in_bounds {A : Type} (m : M A) : Prop :=
  ∀ st, ∃ out,
    trace (snd (m st)) = trace st ++ out ∧
    Forall (λ e, ∃ c, e = Called c) out ∧
    fst (m st) ≠ inr IndexOutOfRange.
End Environment.
End Main.

(** ** A device at hand
    A parser that knows two literals, [%.2f] on the two bounds the tool
    prints, a device that answers every call without an error, and a
    script for it. *)
Module Device.
Import Main.

Definition ParseFloat (val : string) : float * option string :=
  if decide (val = "0.5") then (0.5%float, None)
  else if decide (val = "NaN") then (nan, None)
  else (0%float, Some "invalid syntax").

Definition Sprintf_2f (f : float) : string :=
  if (f =? 1)%float then "1.00" else "0.00".

Definition ask (c : call) (w : unit) : reply * unit :=
  ({| err := None; ips := ["192.168.1.20"]; playing := true; returns := false |}, w).

Definition start : state unit := {| trace := []; world := tt |}.

Definition script : list string :=
  ["play http://192.168.1.2/a.mp3"; "volume 0.5"; "pause"].

Definition play_nothing : Context :=
  {| debug := false; host := "tv"; port := 8009;
     Command_Name := "play"; Args := [] |}.

Definition from_script : Context :=
  {| debug := true; host := "tv"; port := 8009;
     Command_Name := "script"; Args := [] |}.
End Device.

(** * Properties *)

(** ** Machine integers and string tests *)

Lemma wrap_in_range (z : Z) : - 2 ^ 63 ≤ z < 2 ^ 63 → wrap 64 z = z.
Proof.
  intros Hz. unfold wrap.
  replace (64 - 1) with 63 by lia.
  rewrite Z.mod_small; lia.
Qed.

Lemma AddInt64_succ (x : Z) : 0 ≤ x < max_int64 → AddInt64 x 1 = x + 1.
Proof. unfold AddInt64, max_int64. intros Hx. apply wrap_in_range. lia. Qed.

Lemma to_int_in_range (v : Z) : 0 ≤ v ≤ max_int64 → to_int v = v.
Proof. unfold to_int, int_bits, max_int64. intros Hv. apply wrap_in_range. lia. Qed.

Example AddInt64_wraps : AddInt64 max_int64 1 = - 2 ^ 63.
Proof. reflexivity. Qed.

Lemma neqb_false (a b : string) : neqb a b = false ↔ a = b.
Proof.
  unfold neqb. rewrite negb_false_iff. apply String.eqb_eq.
Qed.

Lemma neqb_true (a b : string) : neqb a b = true ↔ a ≠ b.
Proof.
  unfold neqb. rewrite negb_true_iff. apply String.eqb_neq.
Qed.

Section Properties.
Context {P : Type} `{!Payload P} {Callback : Type}.
Implicit Types (s : @system P Callback) (c : @Channel Callback).

(** ** The guards and the listener loop *)

Lemma misaddressed_false c (message : api.CastMessage) :
  misaddressed c message = false ↔
  api.DestinationId message = "*" ∨
  (api.SourceId message = DestinationId c ∧
   api.DestinationId message = sourceId c ∧
   api.Namespace message = namespace c).
Proof.
  unfold misaddressed.
  rewrite andb_false_iff, !orb_false_iff, !neqb_false. tauto.
Qed.

Lemma untyped_true (headers : PayloadHeaders) :
  untyped headers = true ↔ Type_ headers = "" ∧ ResponseType headers = "".
Proof. unfold untyped. by rewrite andb_true_iff, !String.eqb_eq. Qed.

Lemma listens_true (l : @channelListener Callback) (headers : PayloadHeaders) :
  listens l headers = true ↔
  responseType l = Type_ headers ∨
  (ResponseType headers ≠ "" ∧ responseType l = ResponseType headers).
Proof.
  unfold listens. by rewrite orb_true_iff, andb_true_iff, neqb_true, !String.eqb_eq.
Qed.

Lemma correlated_Some (headers : PayloadHeaders) (r : Z) :
  correlated headers = Some r ↔ RequestId headers = Some r ∧ r ≠ 0.
Proof.
  unfold correlated. destruct (RequestId headers) as [r'|].
  - destruct (Z.eqb_spec r' 0) as [->|Hr]; simpl.
    + split; [discriminate | intros [[= <-] Hne]; by destruct Hne].
    + split; [intros [= <-]; by split | by intros [[= <-] _]].
  - split; [discriminate | by intros [? _]].
Qed.

Lemma correlated_RequestId (headers : PayloadHeaders) (r : Z) :
  RequestId headers = Some r → r ≠ 0 → correlated headers = Some r.
Proof. intros Hr H0. by apply correlated_Some. Qed.

Lemma fanout_app (ls1 ls2 : list (@channelListener Callback)) message headers :
  fanout (P:=P) (ls1 ++ ls2) message headers =
  fanout ls1 message headers ++ fanout ls2 message headers.
Proof.
  induction ls1 as [|l ls1 IH]; simpl; [done|].
  destruct (listens l headers); simpl; by rewrite IH.
Qed.

Lemma stamped_fanout (ls : list (@channelListener Callback)) message headers :
  stamped (fanout (P:=P) ls message headers) = [].
Proof.
  induction ls as [|l ls IH]; simpl; [done|]. by destruct (listens l headers).
Qed.

Lemma invoked_fanout (ls : list (@channelListener Callback)) message headers :
  invoked (fanout (P:=P) ls message headers) =
  (λ l, (callback l, message)) <$> List.filter (λ l, listens l headers) ls.
Proof.
  induction ls as [|l ls IH]; simpl; [done|].
  destruct (listens l headers); simpl; by rewrite IH.
Qed.

Lemma fanout_only_callbacks (ls : list (@channelListener Callback)) message headers :
  Forall (λ ev : @event P Callback, ∃ cb, ev = EvCallback cb message)
    (fanout ls message headers).
Proof.
  induction ls as [|l ls IH]; simpl; [constructor|].
  destruct (listens l headers); [constructor; eauto|done].
Qed.

Lemma Message_lookup_found c headers r listener :
  correlated headers = Some r →
  inFlight c !! r = Some listener →
  Message_lookup c headers = MSend r listener.
Proof. intros Hr Hl. unfold Message_lookup. by rewrite Hr, Hl. Qed.

Lemma Message_lookup_absent c headers :
  (∀ r, correlated headers = Some r → inFlight c !! r = None) →
  Message_lookup c headers = MRange.
Proof.
  intros Hr. unfold Message_lookup.
  destruct (correlated headers) as [r|]; [|done]. by rewrite (Hr r).
Qed.

(** ** The list of goroutines *)

Lemma with_channel_same s : with_channel (channel s) s = s.
Proof. by destruct s. Qed.

Lemma update_as_go s g (th th0 : goroutine) c :
  length (goroutines s) = g →
  update g th c (go th0 s) = go th (with_channel c s).
Proof.
  intros <-. unfold update, go, with_channel; simpl. f_equal.
  rewrite insert_app_r_alt by lia.
  by replace (length (goroutines s) - length (goroutines s))%nat with 0%nat by lia.
Qed.

Lemma update_under_go s g (th th0 : goroutine) c :
  (g < length (goroutines s))%nat →
  update g th c (go th0 s) = go th0 (update g th c s).
Proof.
  intros Hg. unfold update, go; simpl. f_equal. by rewrite insert_app_l.
Qed.

Lemma lookup_go_new s g (th : goroutine) :
  length (goroutines s) = g → goroutines (go th s) !! g = Some th.
Proof. intros <-. unfold go; simpl. by rewrite list_lookup_middle. Qed.

Lemma lookup_go_old s g (th th0 : goroutine) :
  goroutines s !! g = Some th → goroutines (go th0 s) !! g = Some th.
Proof. intros Hg. unfold go; simpl. by apply lookup_app_l_Some. Qed.

Lemma lookup_update_same s g (th th0 : goroutine) c :
  goroutines s !! g = Some th0 → goroutines (update g th c s) !! g = Some th.
Proof.
  intros Hg. unfold update; simpl.
  apply list_lookup_insert_eq. by eapply lookup_lt_Some.
Qed.

Lemma lookup_update_other s g g' (th : goroutine) c :
  g ≠ g' → goroutines (update g th c s) !! g' = goroutines s !! g'.
Proof. intros Hg. unfold update; simpl. by apply list_lookup_insert_ne. Qed.

Lemma length_update s g (th : goroutine) c :
  length (goroutines (update g th c s)) = length (goroutines s).
Proof. unfold update; simpl. apply length_insert. Qed.

Lemma length_go s (th : goroutine) :
  length (goroutines (go th s)) = S (length (goroutines s)).
Proof. unfold go; simpl. rewrite length_app; simpl. lia. Qed.

Lemma length_with_channel s c :
  length (goroutines (with_channel c s)) = length (goroutines s).
Proof. done. Qed.

Ltac len := unfold with_channel, update; simpl; by rewrite ?length_insert.

(** ** Schedules *)

Lemma run_cons (l : label) (ls : list label) s :
  run (l :: ls) s =
  match step l s with
  | Some (s1, evs1) =>
      match run ls s1 with
      | Some (s2, evs2) => Some (s2, evs1 ++ evs2)
      | None => None
      end
  | None => None
  end.
Proof. done. Qed.

Lemma run_app (sched1 sched2 : list label) s s1 evs1 :
  run sched1 s = Some (s1, evs1) →
  run (sched1 ++ sched2) s =
  match run sched2 s1 with
  | Some (s2, evs2) => Some (s2, evs1 ++ evs2)
  | None => None
  end.
Proof.
  revert s evs1. induction sched1 as [|l sched1 IH]; intros s evs1 Hrun.
  - simpl in Hrun. simplify_eq. simpl. by destruct (run sched2 s1) as [[??]|].
  - rewrite <- app_comm_cons, run_cons. rewrite run_cons in Hrun.
    destruct (step l s) as [[s' evs']|]; [|done].
    destruct (run sched1 s') as [[s'' evs'']|] eqn:Hrest; [|done].
    simplify_eq. rewrite (IH _ _ Hrest).
    destruct (run sched2 s1) as [[??]|]; [|done]. by rewrite app_assoc.
Qed.

Lemma step_Run_new s g (th : goroutine) :
  length (goroutines s) = g →
  step (Run g) (go th s) =
  match th with
  | GoRequest ctx payload id pc => Request_run g ctx payload id pc (go th s)
  | GoMessage message headers pc => Message_run g message headers pc (go th s)
  end.
Proof. intros Hg. unfold step. by rewrite lookup_go_new. Qed.

Lemma returned_Message_is_final s g message headers :
  goroutines s !! g = Some (GoMessage message headers MReturned) →
  step (Run g) s = None ∧ step (Handoff g) s = None ∧
  step (SelectDone g) s = None ∧ ∀ result, step (ConnSend g result) s = None.
Proof. intros Hg. unfold step. rewrite Hg. done. Qed.

(** ** Complete calls *)

Lemma run_Message_misaddressed s message headers :
  misaddressed (channel s) message = true →
  run (Message_dropped (length (goroutines s)) message headers) s =
  Some (go (GoMessage message headers MReturned) s, []).
Proof.
  intros Hm. unfold Message_dropped.
  rewrite run_cons. cbn [step]. rewrite run_cons, step_Run_new by done.
  unfold Message_run. cbn [channel go]. rewrite Hm.
  by rewrite update_as_go, with_channel_same by done.
Qed.

Lemma run_Message_untyped s message headers :
  misaddressed (channel s) message = false →
  untyped headers = true →
  run (Message_dropped (length (goroutines s)) message headers) s =
  Some (go (GoMessage message headers MReturned) s, [EvLogErrorf headers message]).
Proof.
  intros Hm Hu. unfold Message_dropped.
  rewrite run_cons. cbn [step]. rewrite run_cons, step_Run_new by done.
  unfold Message_run. cbn [channel go]. rewrite Hm, Hu.
  by rewrite update_as_go, with_channel_same by done.
Qed.

Lemma run_Message_uncorrelated s message headers :
  misaddressed (channel s) message = false →
  untyped headers = false →
  (∀ r, correlated headers = Some r → inFlight (channel s) !! r = None) →
  run (Message_uncorrelated (length (goroutines s)) message headers) s =
  Some (go (GoMessage message headers MReturned) s,
        fanout (listeners (channel s)) message headers).
Proof.
  intros Hm Hu Hr. unfold Message_uncorrelated.
  rewrite run_cons. cbn [step]. rewrite run_cons, step_Run_new by done.
  unfold Message_run at 1. cbn [channel go]. rewrite Hm, Hu.
  rewrite (Message_lookup_absent _ _ Hr).
  rewrite update_as_go, with_channel_same by done.
  rewrite run_cons, step_Run_new by done. unfold Message_run. cbn [channel go].
  rewrite update_as_go, with_channel_same by done. cbn [run]. by rewrite app_nil_r.
Qed.

Lemma run_Message_correlated s message headers r listener ctx payload id :
  misaddressed (channel s) message = false →
  untyped headers = false →
  correlated headers = Some r →
  inFlight (channel s) !! r = Some listener →
  goroutines s !! listener = Some (GoRequest ctx payload id RSelect) →
  run (Message_correlated (length (goroutines s)) message headers) s =
  Some (go (GoMessage message headers MReturned)
          (update listener (GoRequest ctx payload id (RReturned (Some message) None))
             (set_inFlight (delete r (inFlight (channel s))) (channel s)) s),
        fanout (listeners (channel s)) message headers).
Proof.
  intros Hm Hu Hr Hl Hg. unfold Message_correlated.
  pose proof (lookup_lt_Some _ _ _ Hg) as Hlt.
  rewrite run_cons. cbn [step]. rewrite run_cons, step_Run_new by done.
  unfold Message_run at 1. cbn [channel go]. rewrite Hm, Hu.
  rewrite (Message_lookup_found _ _ _ _ Hr Hl).
  rewrite update_as_go, with_channel_same by done.
  rewrite run_cons. unfold step at 1.
  rewrite lookup_go_new, (lookup_go_old _ _ _ _ Hg) by done.
  rewrite update_under_go by done.
  rewrite update_as_go by len.
  rewrite run_cons, step_Run_new by len.
  unfold Message_run at 1.
  rewrite update_as_go by len.
  rewrite run_cons, step_Run_new by len.
  unfold Message_run at 1.
  rewrite update_as_go by len.
  cbn [run app]. by rewrite app_nil_r.
Qed.

(** A dispatch that finds a waiting request, and one more with the same id. *)
Lemma Message_delivers_once s r waiter ctx payload id
    (message : api.CastMessage) (headers : PayloadHeaders)
    (message2 : api.CastMessage) (headers2 : PayloadHeaders) :
  inFlight (channel s) !! r = Some waiter →
  goroutines s !! waiter = Some (GoRequest ctx payload id RSelect) →
  correlated headers = Some r →
  misaddressed (channel s) message = false →
  untyped headers = false →
  RequestId headers2 = Some r →
  misaddressed (channel s) message2 = false →
  untyped headers2 = false →
  ∃ s2,
    run (Message_correlated (length (goroutines s)) message headers) s =
      Some (s2, fanout (listeners (channel s)) message headers) ∧
    goroutines s2 !! waiter =
      Some (GoRequest ctx payload id (RReturned (Some message) None)) ∧
    inFlight (channel s2) = delete r (inFlight (channel s)) ∧
    Message_lookup (channel s2) headers2 = MRange ∧
    run (Message_uncorrelated (S (length (goroutines s))) message2 headers2) s2 =
      Some (go (GoMessage message2 headers2 MReturned) s2,
            fanout (listeners (channel s2)) message2 headers2).
Proof.
  intros Htab Hw Hr Hm Hu Hh2 Hm2 Hu2.
  pose proof (run_Message_correlated s message headers r waiter ctx payload id
                Hm Hu Hr Htab Hw) as Hrun.
  set (s2 := go (GoMessage message headers MReturned)
               (update waiter (GoRequest ctx payload id (RReturned (Some message) None))
                  (set_inFlight (delete r (inFlight (channel s))) (channel s)) s))
    in *.
  assert (∀ r', correlated headers2 = Some r' → inFlight (channel s2) !! r' = None)
    as Hnone.
  { intros r' [Hr' _]%correlated_Some. rewrite Hh2 in Hr'. injection Hr' as <-.
    apply lookup_delete_eq. }
  assert (length (goroutines s2) = S (length (goroutines s))) as Hlen.
  { unfold s2. by rewrite length_go, length_update. }
  pose proof (run_Message_uncorrelated s2 message2 headers2 Hm2 Hu2 Hnone) as Hrun2.
  rewrite Hlen in Hrun2.
  exists s2. split; [exact Hrun|].
  split; [apply lookup_go_old; by eapply lookup_update_same|].
  split; [done|]. split; [by apply Message_lookup_absent|]. exact Hrun2.
Qed.

Lemma run_Request_until_select s g ctx payload :
  length (goroutines s) = g →
  run (Request_until_select g ctx payload) s =
  let v := AddInt64 (requestId (channel s)) 1 in
  let id := to_int v in
  Some (go (GoRequest ctx (setRequestId id payload) id RSelect)
          (with_channel
             (set_inFlight (<[id := g]> (inFlight (channel s)))
                (set_requestId v (channel s))) s),
        [EvSetRequestId id; Send (setRequestId id payload) (channel s)]).
Proof.
  intros Hg. unfold Request_until_select.
  rewrite run_cons. cbn [step]. rewrite run_cons, step_Run_new by done.
  unfold Request_run at 1. rewrite update_as_go by done.
  rewrite run_cons, step_Run_new by len.
  unfold Request_run at 1. rewrite update_as_go by len.
  rewrite run_cons. unfold step at 1. rewrite lookup_go_new by len.
  rewrite update_as_go by len.
  reflexivity.
Qed.

Lemma run_Request_send_failing s g ctx payload err :
  length (goroutines s) = g →
  run (Request_send_failing g ctx payload err) s =
  let v := AddInt64 (requestId (channel s)) 1 in
  let id := to_int v in
  Some (go (GoRequest ctx (setRequestId id payload) id (RSendFailed err))
          (with_channel
             (set_inFlight (<[id := g]> (inFlight (channel s)))
                (set_requestId v (channel s))) s),
        [EvSetRequestId id; Send (setRequestId id payload) (channel s)]).
Proof.
  intros Hg. unfold Request_send_failing.
  rewrite run_cons. cbn [step]. rewrite run_cons, step_Run_new by done.
  unfold Request_run at 1. rewrite update_as_go by done.
  rewrite run_cons, step_Run_new by len.
  unfold Request_run at 1. rewrite update_as_go by len.
  rewrite run_cons. unfold step at 1. rewrite lookup_go_new by len.
  rewrite update_as_go by len.
  reflexivity.
Qed.

Lemma run_Request_send_fails s g ctx payload err :
  length (goroutines s) = g →
  run (Request_send_fails g ctx payload err) s =
  let v := AddInt64 (requestId (channel s)) 1 in
  let id := to_int v in
  Some (go (GoRequest ctx (setRequestId id payload) id (RReturned None (Some err)))
          (with_channel
             (set_inFlight (delete id (<[id := g]> (inFlight (channel s))))
                (set_requestId v (channel s))) s),
        [EvSetRequestId id; Send (setRequestId id payload) (channel s)]).
Proof.
  intros Hg. unfold Request_send_fails, Request_send_failing. cbn [app].
  rewrite run_cons. cbn [step]. rewrite run_cons, step_Run_new by done.
  unfold Request_run at 1. rewrite update_as_go by done.
  rewrite run_cons, step_Run_new by len.
  unfold Request_run at 1. rewrite update_as_go by len.
  rewrite run_cons. unfold step at 1. rewrite lookup_go_new by len.
  rewrite update_as_go by len.
  rewrite run_cons, step_Run_new by len.
  unfold Request_run at 1. rewrite update_as_go by len.
  reflexivity.
Qed.

Lemma run_Request_gives_up s g ctx payload id e :
  goroutines s !! g = Some (GoRequest ctx payload id RSelect) →
  done s !! ctx = Some e →
  run (Request_gives_up g) s =
  Some (update g (GoRequest ctx payload id (RReturned None (Some e)))
          (set_inFlight (delete id (inFlight (channel s))) (channel s)) s, []).
Proof.
  intros Hg He. unfold Request_gives_up.
  rewrite run_cons. unfold step at 1. rewrite Hg, He.
  rewrite run_cons. unfold step at 1.
  rewrite (lookup_update_same _ _ _ _ _ Hg).
  unfold Request_run. cbn [done update channel goroutines]. rewrite He.
  cbn [run app]. unfold update. cbn [goroutines channel done].
  by rewrite list_insert_insert_eq.
Qed.

(** ** The counter *)

Lemma step_counter (l : label) s s' evs :
  step l s = Some (s', evs) →
  0 ≤ requestId (channel s) < max_int64 →
  (requestId (channel s') = requestId (channel s) ∧ stamped evs = []) ∨
  (requestId (channel s') = requestId (channel s) + 1 ∧
   stamped evs = [requestId (channel s) + 1]).
Proof.
  intros Hstep Hc.
  destruct l; simpl in Hstep; repeat case_match; simplify_eq; simpl; auto.
  all: try (unfold Request_run in Hstep; repeat case_match; simplify_eq; simpl; auto).
  all: try (unfold Message_run in Hstep; repeat case_match; simplify_eq; simpl; auto).
  - right. rewrite AddInt64_succ by done. rewrite to_int_in_range by lia. done.
  - left. split; [done|]. apply stamped_fanout.
Qed.

Lemma stamped_app (evs1 evs2 : list (@event P Callback)) :
  stamped (evs1 ++ evs2) = stamped evs1 ++ stamped evs2.
Proof.
  induction evs1 as [|e evs1 IH]; simpl; [done|].
  destruct e; simpl; by rewrite ?IH.
Qed.

Lemma run_counter (sched : list label) s s' evs :
  run sched s = Some (s', evs) →
  0 ≤ requestId (channel s) →
  requestId (channel s) + Z.of_nat (length sched) ≤ max_int64 →
  requestId (channel s) ≤ requestId (channel s') ≤
    requestId (channel s) + Z.of_nat (length sched) ∧
  stamped evs =
    seqZ (requestId (channel s) + 1) (requestId (channel s') - requestId (channel s)).
Proof.
  revert s evs. induction sched as [|l sched IH]; intros s evs Hrun H0 Hmax.
  - simpl in Hrun. simplify_eq. simpl. split; [lia|].
    by rewrite seqZ_nil by lia.
  - rewrite run_cons in Hrun.
    destruct (step l s) as [[s1 evs1]|] eqn:Hstep; [|done].
    destruct (run sched s1) as [[s2 evs2]|] eqn:Hrest; [|done].
    simplify_eq. rewrite length_cons, Nat2Z.inj_succ in *.
    destruct (step_counter _ _ _ _ Hstep) as [[Hc Hs]|[Hc Hs]]; [lia|..].
    + destruct (IH _ _ Hrest) as [Hle Hst]; [lia..|].
      rewrite stamped_app, Hs, Hst, Hc. split; [lia|done].
    + destruct (IH _ _ Hrest) as [Hle Hst]; [lia..|].
      rewrite stamped_app, Hs, Hst, Hc. split; [lia|].
      rewrite (seqZ_cons (requestId (channel s) + 1)) by lia.
      simpl. do 2 f_equal; lia.
Qed.


(** ** What holds in every reachable state *)

Lemma issued_ids_update s g (th : goroutine) c :
  issued_ids s →
  requestId (channel s) ≤ requestId c →
  (∀ k ch, inFlight c !! k = Some ch → 1 ≤ k ≤ requestId c) →
  (∀ ctx payload id pc, th = GoRequest ctx payload id pc →
     pc ≠ RCalled → 1 ≤ id ≤ requestId c) →
  issued_ids (update g th c s).
Proof.
  intros (H0 & Htab & Hgo) Hcle Hc Hth. split; [simpl; lia|]. split; [done|].
  intros g' ctx payload id pc Hg' Hpc. unfold update in Hg'; simpl in *.
  apply list_lookup_insert_Some in Hg' as [(-> & -> & _)|[_ Hg']].
  - by eapply Hth.
  - specialize (Hgo _ _ _ _ _ Hg' Hpc). lia.
Qed.

Lemma issued_ids_go s (th : goroutine) :
  issued_ids s →
  (∀ ctx payload id pc, th = GoRequest ctx payload id pc → pc = RCalled) →
  issued_ids (go th s).
Proof.
  intros (H0 & Htab & Hgo) Hth. split; [done|]. split; [done|].
  intros g' ctx payload id pc Hg' Hpc. unfold go in Hg'; simpl in *.
  apply lookup_app_Some in Hg' as [Hg'|[_ Hg']]; [by eapply Hgo|].
  apply list_lookup_singleton_Some in Hg' as [_ Heq].
  destruct Hpc. by eapply Hth.
Qed.

Lemma step_issued_ids (l : label) s s' evs :
  step l s = Some (s', evs) →
  issued_ids s →
  requestId (channel s) < max_int64 →
  issued_ids s'.
Proof.
  intros Hstep Hinv Hmax.
  pose proof Hinv as (H0 & Htab & Hgo).
  destruct l; simpl in Hstep.
  - simplify_eq. apply issued_ids_go; [done|]. by intros ???? [= <- <- <- <-].
  - simplify_eq. apply issued_ids_go; [done|]. discriminate.
  - simplify_eq. done.
  - simplify_eq. done.
  - destruct (done s !! ctx); simplify_eq; done.
  - destruct (goroutines s !! g) as [[ctx payload id pc|message headers pc]|] eqn:Hg;
      [| |done].
    + unfold Request_run in Hstep.
      destruct pc; simplify_eq.
      * rewrite AddInt64_succ, to_int_in_range by lia.
        apply issued_ids_update; simpl; [done|lia| |].
        -- intros k ch Hk. specialize (Htab _ _ Hk). lia.
        -- intros ???? [= <- <- <- <-] _. lia.
      * assert (1 ≤ id ≤ requestId (channel s)) by (by eapply Hgo).
        apply issued_ids_update; simpl; [done|lia| |].
        -- intros k ch [[<- <-]|[_ Hk]]%lookup_insert_Some; [done|by eapply Htab].
        -- intros ???? [= <- <- <- <-] _. done.
      * assert (1 ≤ id ≤ requestId (channel s)) by (by eapply Hgo).
        apply issued_ids_update; simpl; [done|lia| |].
        -- intros k ch [_ Hk]%lookup_delete_Some. by eapply Htab.
        -- intros ???? [= <- <- <- <-] _. done.
      * assert (1 ≤ id ≤ requestId (channel s)) by (by eapply Hgo).
        apply issued_ids_update; simpl; [done|lia| |].
        -- intros k ch [_ Hk]%lookup_delete_Some. by eapply Htab.
        -- intros ???? [= <- <- <- <-] _. done.
    + unfold Message_run in Hstep.
      destruct pc; repeat case_match; simplify_eq;
        (apply issued_ids_update; simpl; [done|lia| |discriminate]); try done.
      intros k ch [_ Hk]%lookup_delete_Some. by eapply Htab.
  - repeat case_match; simplify_eq.
    all: apply issued_ids_update; [done|lia|done|].
    all: intros ???? [= <- <- <- <-] _; eapply Hgo; [eassumption|done].
  - repeat case_match; simplify_eq.
    apply issued_ids_update; [|simpl; lia|done|discriminate].
    apply issued_ids_update; [done|lia|done|].
    intros ???? [= <- <- <- <-] _; eapply Hgo; [eassumption|done].
  - repeat case_match; simplify_eq.
    apply issued_ids_update; [done|lia|done|].
    intros ???? [= <- <- <- <-] _; eapply Hgo; [eassumption|done].
Qed.

Lemma run_issued_ids (sched : list label) s s' evs :
  run sched s = Some (s', evs) →
  issued_ids s →
  requestId (channel s) + Z.of_nat (length sched) ≤ max_int64 →
  issued_ids s'.
Proof.
  revert s evs. induction sched as [|l sched IH]; intros s evs Hrun Hinv Hmax.
  - simpl in Hrun. by simplify_eq.
  - rewrite run_cons in Hrun.
    destruct (step l s) as [[s1 evs1]|] eqn:Hstep; [|done].
    destruct (run sched s1) as [[s2 evs2]|] eqn:Hrest; [|done].
    simplify_eq. rewrite length_cons, Nat2Z.inj_succ in Hmax.
    pose proof Hinv as (H0 & _).
    eapply IH; [done|eapply step_issued_ids; [done..|lia]|].
    destruct (step_counter _ _ _ _ Hstep) as [[Hc _]|[Hc _]]; lia.
Qed.

Lemma reachable_issued_ids s :
  reachable s → issued_ids s ∧ requestId (channel s) < max_int64.
Proof.
  intros (a & b & n & sched & evs & Hrun & Hlen).
  assert (issued_ids (boot (P:=P) (NewChannel (Callback:=Callback) a b n))) as Hboot.
  { split; [done|]. split; [by intros k ch Hk|by intros g ctx p id pc Hg]. }
  split.
  - eapply run_issued_ids; [done..|]. simpl. lia.
  - apply run_counter in Hrun as [Hc _]; simpl in *; lia.
Qed.

Lemma next_requestId s :
  reachable s →
  AddInt64 (requestId (channel s)) 1 = requestId (channel s) + 1 ∧
  to_int (requestId (channel s) + 1) = requestId (channel s) + 1 ∧
  requestId (channel s) + 1 ≠ 0 ∧
  inFlight (channel s) !! (requestId (channel s) + 1) = None.
Proof.
  intros [(H0 & Htab & _) Hmax]%reachable_issued_ids.
  split; [apply AddInt64_succ; lia|].
  split; [apply to_int_in_range; lia|].
  split; [lia|].
  destruct (inFlight (channel s) !! (requestId (channel s) + 1)) as [ch|] eqn:Hk; [|done].
  apply Htab in Hk. lia.
Qed.

Lemma called_or_not (pc : request_pc) : pc = RCalled ∨ pc ≠ RCalled.
Proof. destruct pc; auto. Qed.

Lemma table_owned_go s (th : goroutine) :
  table_owned s → table_owned (go th s).
Proof.
  intros Hown k ch Hk. destruct (Hown k ch Hk) as (ctx & p & pc & Hg & Hpc).
  exists ctx, p, pc. split; [by apply lookup_go_old|done].
Qed.

Lemma ids_distinct_go s (th : goroutine) :
  ids_distinct s →
  (∀ ctx payload id pc, th = GoRequest ctx payload id pc → pc = RCalled) →
  ids_distinct (go th s).
Proof.
  intros Hd Hth g1 g2 ctx1 p1 pc1 ctx2 p2 pc2 id Hg1 Hg2 Hpc1 Hpc2.
  unfold go in Hg1, Hg2; simpl in *.
  apply lookup_app_Some in Hg1 as [Hg1|[_ Hg1]];
    [|apply list_lookup_singleton_Some in Hg1 as [_ Heq]; destruct Hpc1; by eapply Hth].
  apply lookup_app_Some in Hg2 as [Hg2|[_ Hg2]];
    [|apply list_lookup_singleton_Some in Hg2 as [_ Heq]; destruct Hpc2; by eapply Hth].
  by eapply Hd.
Qed.

Lemma ids_distinct_update s g (th th' : goroutine) c :
  ids_distinct s →
  goroutines s !! g = Some th →
  match th' with
  | GoRequest _ _ id' pc' =>
      pc' ≠ RCalled →
      ∀ g' ctx payload pc, g' ≠ g →
        goroutines s !! g' = Some (GoRequest ctx payload id' pc) → pc = RCalled
  | GoMessage _ _ _ => True
  end →
  ids_distinct (update g th' c s).
Proof.
  intros Hd Hg Hfresh g1 g2 ctx1 p1 pc1 ctx2 p2 pc2 id Hg1 Hg2 Hpc1 Hpc2.
  unfold update in Hg1, Hg2; simpl in *.
  apply list_lookup_insert_Some in Hg1 as [(-> & -> & _)|[Hne1 Hg1]];
    apply list_lookup_insert_Some in Hg2 as [(-> & Heq & _)|[Hne2 Hg2]].
  - done.
  - destruct Hpc2. eapply (Hfresh Hpc1 g2); [done|exact Hg2].
  - subst th'. destruct Hpc1. eapply (Hfresh Hpc2 g1); [done|exact Hg1].
  - by eapply Hd.
Qed.

Lemma keeps_id_fresh s g ctx payload id pc :
  ids_distinct s →
  goroutines s !! g = Some (GoRequest ctx payload id pc) →
  pc ≠ RCalled →
  ∀ g' ctx' payload' pc', g' ≠ g →
    goroutines s !! g' = Some (GoRequest ctx' payload' id pc') → pc' = RCalled.
Proof.
  intros Hd Hg Hpc g' ctx' p' pc' Hne Hg'.
  destruct (called_or_not pc') as [|Hpc']; [done|].
  destruct Hne. by eapply Hd.
Qed.

Lemma table_owned_update s g (th' : goroutine) c :
  table_owned s →
  (∀ k ch, inFlight c !! k = Some ch →
     (ch = g ∧ ∃ ctx payload pc, th' = GoRequest ctx payload k pc ∧ owns pc = true) ∨
     (ch ≠ g ∧ inFlight (channel s) !! k = Some ch)) →
  (g < length (goroutines s))%nat →
  table_owned (update g th' c s).
Proof.
  intros Hown Hc Hlt k ch Hk. unfold update; simpl in *.
  destruct (Hc k ch Hk) as [(-> & ctx & p & pc & -> & Hpc)|[Hne Hk']].
  - exists ctx, p, pc. split; [by apply list_lookup_insert_eq|done].
  - destruct (Hown k ch Hk') as (ctx & p & pc & Hg & Hpc).
    exists ctx, p, pc. split; [by rewrite list_lookup_insert_ne|done].
Qed.

(** Entries are untouched and the goroutine that moves is a message. *)
Lemma table_owned_update_Message s g message headers pc message' headers' pc' c :
  table_owned s →
  goroutines s !! g = Some (GoMessage message headers pc) →
  (∀ k ch, inFlight c !! k = Some ch → inFlight (channel s) !! k = Some ch) →
  table_owned (update g (GoMessage message' headers' pc') c s).
Proof.
  intros Hown Hg Hc. apply table_owned_update; [done| |by eapply lookup_lt_Some].
  intros k ch Hk%Hc. right. split; [|done]. intros ->.
  destruct (Hown k g Hk) as (? & ? & ? & Hg' & _). congruence.
Qed.

(** The request that moves keeps its id and stays at a point where it may
    own its entry, or it has just deleted that entry. *)
Lemma table_owned_update_Request s g ctx payload id pc ctx' payload' pc' c :
  table_owned s →
  goroutines s !! g = Some (GoRequest ctx payload id pc) →
  (∀ k ch, inFlight c !! k = Some ch →
     inFlight (channel s) !! k = Some ch ∧ (owns pc' = false → k ≠ id)) →
  table_owned (update g (GoRequest ctx' payload' id pc') c s).
Proof.
  intros Hown Hg Hc. apply table_owned_update; [done| |by eapply lookup_lt_Some].
  intros k ch [Hk Hid]%Hc.
  destruct (decide (ch = g)) as [->|Hne]; [left|by right].
  split; [done|].
  destruct (Hown k g Hk) as (? & ? & ? & Hg' & _).
  rewrite Hg in Hg'. injection Hg' as <- <- <- <-.
  exists ctx', payload', pc'. split; [done|].
  destruct (owns pc') eqn:Ho; [done|]. by destruct (Hid eq_refl).
Qed.

Lemma table_owned_not_owner s g ctx payload id pc k :
  table_owned s →
  goroutines s !! g = Some (GoRequest ctx payload id pc) →
  inFlight (channel s) !! k = Some g →
  k = id ∧ owns pc = true.
Proof.
  intros Hown Hg Hk. destruct (Hown k g Hk) as (? & ? & ? & Hg' & Ho).
  rewrite Hg in Hg'. by injection Hg' as <- <- <- <-.
Qed.

Lemma step_table_owned (l : label) s s' evs :
  step l s = Some (s', evs) → table_owned s → table_owned s'.
Proof.
  intros Hstep Hown. destruct l; simpl in Hstep.
  - simplify_eq. by apply table_owned_go.
  - simplify_eq. by apply table_owned_go.
  - simplify_eq. done.
  - simplify_eq. done.
  - destruct (done s !! ctx); simplify_eq; done.
  - destruct (goroutines s !! g) as [[ctx payload id pc|message headers pc]|] eqn:Hg;
      [| |done].
    + pose proof (lookup_lt_Some _ _ _ Hg) as Hlt.
      unfold Request_run in Hstep. destruct pc; simplify_eq.
      * apply table_owned_update; [done| |done]. simpl. intros k ch Hk. right.
        split; [|done]. intros ->.
        by destruct (table_owned_not_owner _ _ _ _ _ _ _ Hown Hg Hk).
      * apply table_owned_update; [done| |done]. simpl. intros k ch Hk.
        apply lookup_insert_Some in Hk as [[<- <-]|[Hne Hk]].
        -- left. split; [done|]. by eexists _, _, _.
        -- right. split; [|done]. intros ->.
           by destruct (table_owned_not_owner _ _ _ _ _ _ _ Hown Hg Hk).
      * eapply table_owned_update_Request; [done..|]. simpl.
        intros k ch [Hne Hk]%lookup_delete_Some. done.
      * eapply table_owned_update_Request; [done..|]. simpl.
        intros k ch [Hne Hk]%lookup_delete_Some. done.
    + unfold Message_run in Hstep.
      destruct pc; repeat case_match; simplify_eq;
        (eapply table_owned_update_Message; [done..|]); simpl; try done.
      by intros k ch [_ Hk]%lookup_delete_Some.
  - destruct (goroutines s !! g) as [[ctx payload id []|]|] eqn:Hg; try done.
    simplify_eq. eapply table_owned_update_Request; [done..|].
    intros k ch Hk. split; [done|]. by destruct result.
  - destruct (goroutines s !! g) as [[|message headers [|r listener| | |]]|] eqn:Hg;
      try done.
    destruct (goroutines s !! listener) as [[ctx payload id []|]|] eqn:Hl; try done.
    simplify_eq.
    eapply table_owned_update_Message.
    + eapply table_owned_update_Request; [done..|]. done.
    + rewrite lookup_update_other; [done|congruence].
    + done.
  - destruct (goroutines s !! g) as [[ctx payload id []|]|] eqn:Hg; try done.
    destruct (done s !! ctx); simplify_eq.
    eapply table_owned_update_Request; [done..|]. done.
Qed.

Lemma step_ids_distinct (l : label) s s' evs :
  step l s = Some (s', evs) →
  issued_ids s →
  requestId (channel s) < max_int64 →
  ids_distinct s → ids_distinct s'.
Proof.
  intros Hstep (H0 & _ & Hids) Hmax Hd. destruct l; simpl in Hstep.
  - simplify_eq. apply ids_distinct_go; [done|]. by intros ???? [= <- <- <- <-].
  - simplify_eq. apply ids_distinct_go; [done|]. discriminate.
  - simplify_eq. done.
  - simplify_eq. done.
  - destruct (done s !! ctx); simplify_eq; done.
  - destruct (goroutines s !! g) as [[ctx payload id pc|message headers pc]|] eqn:Hg;
      [| |done].
    + unfold Request_run in Hstep. destruct pc; simplify_eq.
      * eapply ids_distinct_update; [done..|].
        rewrite AddInt64_succ, to_int_in_range by lia.
        intros _ g' ctx' p' pc' Hne Hg'.
        destruct (called_or_not pc') as [|Hpc']; [done|].
        specialize (Hids _ _ _ _ _ Hg' Hpc'). lia.
      * eapply ids_distinct_update; [done..|]. intros _. by eapply keeps_id_fresh.
      * eapply ids_distinct_update; [done..|]. intros _. by eapply keeps_id_fresh.
      * eapply ids_distinct_update; [done..|]. intros _. by eapply keeps_id_fresh.
    + unfold Message_run in Hstep.
      destruct pc; repeat case_match; simplify_eq;
        by eapply ids_distinct_update.
  - destruct (goroutines s !! g) as [[ctx payload id []|]|] eqn:Hg; try done.
    simplify_eq. eapply ids_distinct_update; [done..|].
    intros _. by eapply keeps_id_fresh.
  - destruct (goroutines s !! g) as [[|message headers [|r listener| | |]]|] eqn:Hg;
      try done.
    destruct (goroutines s !! listener) as [[ctx payload id []|]|] eqn:Hl; try done.
    simplify_eq.
    eapply ids_distinct_update; [| |done].
    + eapply ids_distinct_update; [done..|]. intros _. by eapply keeps_id_fresh.
    + rewrite lookup_update_other; [done|congruence].
  - destruct (goroutines s !! g) as [[ctx payload id []|]|] eqn:Hg; try done.
    destruct (done s !! ctx); simplify_eq.
    eapply ids_distinct_update; [done..|]. intros _. by eapply keeps_id_fresh.
Qed.

Lemma run_consistent (sched : list label) s s' evs :
  run sched s = Some (s', evs) →
  consistent s →
  requestId (channel s) + Z.of_nat (length sched) ≤ max_int64 →
  consistent s'.
Proof.
  revert s evs. induction sched as [|l sched IH]; intros s evs Hrun Hinv Hmax.
  - simpl in Hrun. by simplify_eq.
  - rewrite run_cons in Hrun.
    destruct (step l s) as [[s1 evs1]|] eqn:Hstep; [|done].
    destruct (run sched s1) as [[s2 evs2]|] eqn:Hrest; [|done].
    simplify_eq. rewrite length_cons, Nat2Z.inj_succ in Hmax.
    destruct Hinv as (Hids & Hown & Hd). pose proof Hids as (H0 & _).
    eapply IH; [done| |].
    + split; [eapply step_issued_ids; [done..|lia]|].
      split; [by eapply step_table_owned|].
      eapply step_ids_distinct; [done..|lia|done].
    + destruct (step_counter _ _ _ _ Hstep) as [[Hc _]|[Hc _]]; lia.
Qed.

Lemma reachable_consistent s : reachable s → consistent s.
Proof.
  intros (a & b & n & sched & evs & Hrun & Hlen).
  eapply run_consistent; [done| |simpl; lia].
  split; [split; [done|split; [by intros k ch Hk|by intros g ctx p id pc Hg]]|].
  split; [by intros k ch Hk|by intros g1 g2 ?????? id Hg1].
Qed.

(** A request that returned without a reply has left nothing in the table:
    neither an entry under its id nor an entry holding its channel. *)
Lemma failed_Request_left_no_entry s g ctx payload id err :
  reachable s →
  goroutines s !! g = Some (GoRequest ctx payload id (RReturned None err)) →
  inFlight (channel s) !! id = None ∧ ∀ k, inFlight (channel s) !! k ≠ Some g.
Proof.
  intros (_ & Hown & Hd)%reachable_consistent Hg. split.
  - destruct (inFlight (channel s) !! id) as [ch|] eqn:Hk; [|done].
    destruct (Hown _ _ Hk) as (ctx' & p' & pc' & Hch & Ho).
    assert (ch = g) as ->.
    { eapply Hd; [done..| |done]. by destruct pc'. }
    rewrite Hg in Hch. injection Hch as <- <- <-. by destruct err.
  - intros k Hk.
    destruct (table_owned_not_owner _ _ _ _ _ _ _ Hown Hg Hk) as [_ Ho].
    by destruct err.
Qed.

(** ** A send without a receiver *)

Lemma send_blocked_update s gm gr m h r g (th : goroutine) c :
  send_blocked s gm gr m h r →
  g ≠ gm → g ≠ gr →
  send_blocked (update g th c s) gm gr m h r.
Proof.
  intros [Hm (ctx & p & id & reply & err & Hr)] Hgm Hgr. split.
  - by rewrite lookup_update_other.
  - exists ctx, p, id, reply, err. by rewrite lookup_update_other.
Qed.

Lemma step_send_blocked (l : label) s s' evs gm gr m h r :
  send_blocked s gm gr m h r →
  step l s = Some (s', evs) →
  send_blocked s' gm gr m h r.
Proof.
  intros Hb Hstep. pose proof Hb as [Hm (ctx & p & id & reply & err & Hr)].
  destruct l; simpl in Hstep.
  - simplify_eq. split; [by apply lookup_go_old|].
    exists ctx, p, id, reply, err. by apply lookup_go_old.
  - simplify_eq. split; [by apply lookup_go_old|].
    exists ctx, p, id, reply, err. by apply lookup_go_old.
  - simplify_eq. done.
  - simplify_eq. done.
  - destruct (done s !! ctx0); simplify_eq; done.
  - destruct (decide (g = gm)) as [->|Hgm].
    { rewrite Hm in Hstep. done. }
    destruct (decide (g = gr)) as [->|Hgr].
    { rewrite Hr in Hstep. done. }
    destruct (goroutines s !! g) as [[ctx' p' id' pc|m' h' pc]|]; [| |done].
    + unfold Request_run in Hstep.
      destruct pc; simplify_eq; by apply send_blocked_update.
    + unfold Message_run in Hstep.
      destruct pc; repeat case_match; simplify_eq; by apply send_blocked_update.
  - destruct (decide (g = gm)) as [->|Hgm].
    { rewrite Hm in Hstep. done. }
    destruct (decide (g = gr)) as [->|Hgr].
    { rewrite Hr in Hstep. done. }
    repeat case_match; simplify_eq; by apply send_blocked_update.
  - destruct (decide (g = gm)) as [->|Hgm].
    { rewrite Hm in Hstep. simpl in Hstep. rewrite Hr in Hstep. done. }
    destruct (decide (g = gr)) as [->|Hgr].
    { rewrite Hr in Hstep. done. }
    destruct (goroutines s !! g) as [[|m' h' [|r' l'| | |]]|] eqn:Hg; try done.
    destruct (goroutines s !! l') as [[ctx' p' id' []|]|] eqn:Hl; try done.
    simplify_eq.
    apply send_blocked_update; [|done..].
    apply send_blocked_update; [done|congruence..].
  - destruct (decide (g = gm)) as [->|Hgm].
    { rewrite Hm in Hstep. done. }
    destruct (decide (g = gr)) as [->|Hgr].
    { rewrite Hr in Hstep. done. }
    repeat case_match; simplify_eq; by apply send_blocked_update.
Qed.

Lemma run_send_blocked (sched : list label) s s' evs gm gr m h r :
  send_blocked s gm gr m h r →
  run sched s = Some (s', evs) →
  send_blocked s' gm gr m h r.
Proof.
  revert s evs. induction sched as [|l sched IH]; intros s evs Hb Hrun.
  - simpl in Hrun. by simplify_eq.
  - rewrite run_cons in Hrun.
    destruct (step l s) as [[s1 evs1]|] eqn:Hstep; [|done].
    destruct (run sched s1) as [[s2 evs2]|] eqn:Hrest; [|done].
    simplify_eq. eapply IH; [|done]. by eapply step_send_blocked.
Qed.

Lemma send_blocked_takes_no_step s gm gr m h r :
  send_blocked s gm gr m h r →
  step (Run gm) s = None ∧ step (Handoff gm) s = None.
Proof.
  intros [Hm (ctx & p & id & reply & err & Hr)]. unfold step.
  by rewrite Hm, Hr.
Qed.

(** ** Dispatch, correlation and fan-out *)

(** C1: a [Message] that passes the guards and carries the id [r] of a
    [Request] that waits in its select hands exactly that message to the
    request, which returns it with a nil error, and the entry of [r] is gone
    from the table.  A second [Message] carrying [r] then finds no entry: it
    goes from the lookup straight to the listener loop, hands the message to
    no goroutine and leaves the system as it was.  This holds for a request
    called in any reachable state and run to its select, and for any entry
    that a reachable state already holds for a waiting request. *)
Theorem Request_returns_the_correlated_Message s (ctx : nat) (payload : P)
    (message message2 : api.CastMessage) (headers headers2 : PayloadHeaders) :
  reachable s →
  misaddressed (channel s) message = false →
  untyped headers = false →
  misaddressed (channel s) message2 = false →
  untyped headers2 = false →
  let g := length (goroutines s) in
  let r := requestId (channel s) + 1 in
  (RequestId headers = Some r →
   RequestId headers2 = Some r →
   ∃ s1 evs1 s2,
     run (Request_until_select g ctx payload) s = Some (s1, evs1) ∧
     stamped evs1 = [r] ∧
     inFlight (channel s1) !! r = Some g ∧
     goroutines s1 !! g = Some (GoRequest ctx (setRequestId r payload) r RSelect) ∧
     run (Message_correlated (S g) message headers) s1 =
       Some (s2, fanout (listeners (channel s1)) message headers) ∧
     goroutines s2 !! g =
       Some (GoRequest ctx (setRequestId r payload) r (RReturned (Some message) None)) ∧
     inFlight (channel s2) = delete r (inFlight (channel s1)) ∧
     Message_lookup (channel s2) headers2 = MRange ∧
     run (Message_uncorrelated (S (S g)) message2 headers2) s2 =
       Some (go (GoMessage message2 headers2 MReturned) s2,
             fanout (listeners (channel s2)) message2 headers2)) ∧
  (∀ r' waiter ctx' payload' id',
     inFlight (channel s) !! r' = Some waiter →
     goroutines s !! waiter = Some (GoRequest ctx' payload' id' RSelect) →
     RequestId headers = Some r' →
     RequestId headers2 = Some r' →
     ∃ s2,
       run (Message_correlated g message headers) s =
         Some (s2, fanout (listeners (channel s)) message headers) ∧
       goroutines s2 !! waiter =
         Some (GoRequest ctx' payload' id' (RReturned (Some message) None)) ∧
       id' = r' ∧
       inFlight (channel s2) = delete r' (inFlight (channel s)) ∧
       Message_lookup (channel s2) headers2 = MRange ∧
       run (Message_uncorrelated (S g) message2 headers2) s2 =
         Some (go (GoMessage message2 headers2 MReturned) s2,
               fanout (listeners (channel s2)) message2 headers2)).
Proof.
  intros Hs Hm Hu Hm2 Hu2 g r. split.
  - intros Hh Hh2.
    destruct (next_requestId s Hs) as (Hadd & Hint & Hr0 & Hfresh).
    pose proof (run_Request_until_select s g ctx payload eq_refl) as Hrun1.
    cbn zeta in Hrun1. rewrite Hadd, Hint in Hrun1. fold r in Hrun1.
    set (s1 := go (GoRequest ctx (setRequestId r payload) r RSelect)
                 (with_channel
                    (set_inFlight (<[r:=g]> (inFlight (channel s)))
                       (set_requestId r (channel s))) s)) in *.
    assert (inFlight (channel s1) !! r = Some g) as Htab1 by apply lookup_insert_eq.
    assert (goroutines s1 !! g = Some (GoRequest ctx (setRequestId r payload) r RSelect))
      as Hg1 by (by apply lookup_go_new).
    assert (length (goroutines s1) = S g) as Hlen1.
    { unfold s1. by rewrite length_go. }
    destruct (Message_delivers_once s1 r g ctx (setRequestId r payload) r
                message headers message2 headers2 Htab1 Hg1
                (correlated_RequestId _ _ Hh Hr0) Hm Hu Hh2 Hm2 Hu2)
      as (s2 & Hrun2 & Hg2 & Htab2 & Hl2 & Hrun3).
    rewrite Hlen1 in Hrun2, Hrun3.
    eexists s1, _, s2. split; [exact Hrun1|]. split; [done|]. split; [done|].
    split; [done|]. split; [exact Hrun2|]. done.
  - intros r' waiter ctx' payload' id' Htab Hw Hh Hh2.
    pose proof (reachable_consistent s Hs) as ((_ & Hkeys & _) & Hown & _).
    assert (r' ≠ 0) as Hr0 by (specialize (Hkeys _ _ Htab); lia).
    destruct (table_owned_not_owner _ _ _ _ _ _ _ Hown Hw Htab) as [Hid _].
    destruct (Message_delivers_once s r' waiter ctx' payload' id'
                message headers message2 headers2 Htab Hw
                (correlated_RequestId _ _ Hh Hr0) Hm Hu Hh2 Hm2 Hu2)
      as (s2 & Hrun2 & Hg2 & Htab2 & Hl2 & Hrun3).
    by exists s2.
Qed.

(** C3: when the write of [c.Send] fails, the entry the call inserted under
    its id is still in the table after the failed write, and is deleted by
    the step that returns the error; the table after the call equals the
    table before it.  Whatever else ran in between: in a reachable state a
    [Request] that has returned without a reply has no entry under its id,
    and no entry holds its channel. *)
Theorem Request_send_failure_leaves_no_entry s (ctx : nat) (payload : P) (err : error) :
  reachable s →
  let g := length (goroutines s) in
  let r := requestId (channel s) + 1 in
  (∃ s1 s2 evs,
     run (Request_send_failing g ctx payload err) s = Some (s1, evs) ∧
     inFlight (channel s1) !! r = Some g ∧
     goroutines s1 !! g =
       Some (GoRequest ctx (setRequestId r payload) r (RSendFailed err)) ∧
     run (Request_send_fails g ctx payload err) s = Some (s2, evs) ∧
     goroutines s2 !! g =
       Some (GoRequest ctx (setRequestId r payload) r (RReturned None (Some err))) ∧
     inFlight (channel s2) !! r = None ∧
     inFlight (channel s2) = inFlight (channel s)) ∧
  (∀ g' ctx' payload' id' err',
     goroutines s !! g' = Some (GoRequest ctx' payload' id' (RReturned None err')) →
     inFlight (channel s) !! id' = None ∧ ∀ k, inFlight (channel s) !! k ≠ Some g').
Proof.
  intros Hs g r. split; [|intros g' ctx' payload' id' err' Hg';
                          by eapply failed_Request_left_no_entry].
  destruct (next_requestId s Hs) as (Hadd & Hint & Hr0 & Hfresh).
  pose proof (run_Request_send_failing s g ctx payload err eq_refl) as Hrun1.
  pose proof (run_Request_send_fails s g ctx payload err eq_refl) as Hrun2.
  cbn zeta in Hrun1, Hrun2. rewrite Hadd, Hint in Hrun1, Hrun2. fold r in Hrun1, Hrun2.
  eexists _, _, _. split; [exact Hrun1|].
  split; [apply lookup_insert_eq|].
  split; [by apply lookup_go_new|].
  split; [exact Hrun2|].
  split; [by apply lookup_go_new|].
  split; [apply lookup_delete_eq|].
  cbn. rewrite delete_insert_eq. by apply delete_id.
Qed.

(** C4: the context of a waiting [Request] becomes done before any reply is
    dispatched.  The request returns a nil message and the context error,
    and the same step deletes its entry.  A [Message] dispatched afterwards
    with that id finds no entry: it is handed to no goroutine, the system
    is otherwise unchanged, and the only calls it makes are the callbacks of
    the listener loop.  Whatever else ran in between: in a reachable state a
    [Message] that carries the id of a [Request] that has returned without a
    reply goes from the lookup straight to the listener loop. *)
Theorem Request_gives_up_and_late_Message_is_dropped s (ctx : nat) (payload : P)
    (sig : ctx_signal) (message : api.CastMessage) (headers : PayloadHeaders) :
  reachable s →
  let g := length (goroutines s) in
  let r := requestId (channel s) + 1 in
  RequestId headers = Some r →
  misaddressed (channel s) message = false →
  untyped headers = false →
  (∃ s1 evs1 s2 e,
     run (Request_until_select g ctx payload) s = Some (s1, evs1) ∧
     inFlight (channel s1) !! r = Some g ∧
     run (CtxDone ctx sig :: Request_gives_up g) s1 = Some (s2, []) ∧
     goroutines s2 !! g =
       Some (GoRequest ctx (setRequestId r payload) r (RReturned None (Some e))) ∧
     (done s !! ctx = None → e = ctx_err sig) ∧
     inFlight (channel s2) !! r = None ∧
     Message_lookup (channel s2) headers = MRange ∧
     run (Message_uncorrelated (S g) message headers) s2 =
       Some (go (GoMessage message headers MReturned) s2,
             fanout (listeners (channel s2)) message headers) ∧
     Forall (λ ev, ∃ cb, ev = EvCallback cb message)
       (fanout (P:=P) (listeners (channel s2)) message headers)) ∧
  (∀ g' ctx' payload' id' err' headers',
     goroutines s !! g' = Some (GoRequest ctx' payload' id' (RReturned None err')) →
     RequestId headers' = Some id' →
     Message_lookup (channel s) headers' = MRange).
Proof.
  intros Hs g r Hh Hm Hu. split.
  2: { intros g' ctx' payload' id' err' headers' Hg' Hid.
       apply Message_lookup_absent. intros r' [Hr' _]%correlated_Some.
       rewrite Hid in Hr'. injection Hr' as <-.
       by eapply failed_Request_left_no_entry. }
  destruct (next_requestId s Hs) as (Hadd & Hint & Hr0 & Hfresh).
  pose proof (run_Request_until_select s g ctx payload eq_refl) as Hrun1.
  cbn zeta in Hrun1. rewrite Hadd, Hint in Hrun1. fold r in Hrun1.
  set (s1 := go (GoRequest ctx (setRequestId r payload) r RSelect)
               (with_channel
                  (set_inFlight (<[r:=g]> (inFlight (channel s)))
                     (set_requestId r (channel s))) s)) in *.
  assert (inFlight (channel s1) !! r = Some g) as Htab1 by apply lookup_insert_eq.
  assert (goroutines s1 !! g = Some (GoRequest ctx (setRequestId r payload) r RSelect))
    as Hg1 by (by apply lookup_go_new).
  assert (length (goroutines s1) = S g) as Hlen1.
  { unfold s1. by rewrite length_go. }
  assert (∃ s1' e, step (CtxDone ctx sig) s1 = Some (s1', []) ∧
            goroutines s1' = goroutines s1 ∧ channel s1' = channel s1 ∧
            done s1' !! ctx = Some e ∧ (done s !! ctx = None → e = ctx_err sig))
    as (s1' & e & Hstep & Hgs & Hch & He & Hsig).
  { unfold step. change (done s1) with (done s).
    destruct (done s !! ctx) as [e|] eqn:Hd.
    - exists s1, e. split; [done|]. split; [done|]. split; [done|].
      split; [exact Hd|discriminate].
    - eexists _, (ctx_err sig). split; [done|]. simpl.
      by rewrite lookup_insert_eq. }
  rewrite <- Hgs in Hg1.
  pose proof (run_Request_gives_up s1' g ctx _ r e Hg1 He) as Hrun2.
  set (s2 := update g (GoRequest ctx (setRequestId r payload) r (RReturned None (Some e)))
               (set_inFlight (delete r (inFlight (channel s1'))) (channel s1')) s1') in *.
  assert (inFlight (channel s2) !! r = None) as Htab2 by apply lookup_delete_eq.
  assert (length (goroutines s2) = S g) as Hlen2.
  { unfold s2. by rewrite length_update, Hgs. }
  assert (∀ r', correlated headers = Some r' → inFlight (channel s2) !! r' = None)
    as Hnone.
  { intros r' [Hr' _]%correlated_Some. by simplify_eq. }
  assert (misaddressed (channel s2) message = false) as Hm2.
  { unfold s2. cbn [channel update]. rewrite Hch. exact Hm. }
  pose proof (run_Message_uncorrelated s2 message headers Hm2 Hu Hnone) as Hrun3.
  rewrite Hlen2 in Hrun3.
  eexists s1, _, s2, e. split; [exact Hrun1|]. split; [done|].
  split; [rewrite run_cons, Hstep, Hrun2; done|].
  split; [by eapply lookup_update_same|].
  split; [done|]. split; [done|]. split; [by apply Message_lookup_absent|].
  split; [exact Hrun3|]. apply fanout_only_callbacks.
Qed.


(** X16: a dispatch that nothing interleaves with.  One message that passes
    the guards, whose requestId has a [Request] waiting in its select and
    whose type matches a registered listener, completes the request and
    invokes the callback of the listener, when the request is still in its
    select at the send of line 77.  Of the table only the entry of that
    requestId is removed, and the step that runs the listener loop never
    changes the Channel. *)
Theorem correlation_and_fanout_are_independent s (message : api.CastMessage)
    (headers : PayloadHeaders) (r : Z) (waiter ctx : nat) (payload : P) (id : Z)
    (l : @channelListener Callback) :
  misaddressed (channel s) message = false →
  untyped headers = false →
  correlated headers = Some r →
  inFlight (channel s) !! r = Some waiter →
  goroutines s !! waiter = Some (GoRequest ctx payload id RSelect) →
  l ∈ listeners (channel s) →
  listens l headers = true →
  ∃ s' evs,
    run (Message_correlated (length (goroutines s)) message headers) s = Some (s', evs) ∧
    goroutines s' !! waiter =
      Some (GoRequest ctx payload id (RReturned (Some message) None)) ∧
    inFlight (channel s') = delete r (inFlight (channel s)) ∧
    evs = fanout (listeners (channel s)) message headers ∧
    (callback l, message) ∈ invoked evs ∧
    (∀ s0 g0 message0 headers0,
       goroutines s0 !! g0 = Some (GoMessage message0 headers0 MRange) →
       ∃ s1 evs0, step (Run g0) s0 = Some (s1, evs0) ∧ channel s1 = channel s0).
Proof.
  intros Hm Hu Hr Hw Hg Hl Hls. do 2 eexists.
  split; [by eapply run_Message_correlated|].
  split; [|split; [done|split; [done|split]]].
  - apply lookup_go_old. by eapply lookup_update_same.
  - rewrite invoked_fanout. apply list_elem_of_fmap. exists l. split; [done|].
    apply list_elem_of_In, filter_In. split; [by apply list_elem_of_In|done].
  - intros s0 g0 message0 headers0 Hg0. do 2 eexists.
    unfold step. rewrite Hg0. unfold Message_run. split; [done|done].
Qed.

(** C7: [Message] goes past line 62 exactly when the destination is the
    wildcard or source, destination and namespace match the Channel.  A
    message that fails the test returns at once: no event, no change to the
    Channel or to any other goroutine, and no further move of its own.  A
    message that passes goes on to the header test of line 66.  The wildcard
    passes whatever the Channel is. *)
Theorem Message_addressing_filter s (message : api.CastMessage) (headers : PayloadHeaders) :
  let c := channel s in
  let g := length (goroutines s) in
  (misaddressed c message = false ↔
     api.DestinationId message = "*" ∨
     (api.SourceId message = DestinationId c ∧
      api.DestinationId message = sourceId c ∧
      api.Namespace message = namespace c)) ∧
  (misaddressed c message = true →
     run (Message_dropped g message headers) s =
       Some (go (GoMessage message headers MReturned) s, []) ∧
     step (Run g) (go (GoMessage message headers MReturned) s) = None ∧
     step (Handoff g) (go (GoMessage message headers MReturned) s) = None) ∧
  (misaddressed c message = false →
     run (Message_dropped g message headers) s =
       if untyped headers
       then Some (go (GoMessage message headers MReturned) s,
                  [EvLogErrorf headers message])
       else Some (go (GoMessage message headers (Message_lookup c headers)) s, [])) ∧
  (api.DestinationId message = "*" → misaddressed c message = false).
Proof.
  intros c g. subst c g. split; [apply misaddressed_false|]. split; [|split].
  - intros Hm. split; [by apply run_Message_misaddressed|].
    destruct (returned_Message_is_final (go (GoMessage message headers MReturned) s)
                (length (goroutines s)) message headers) as (? & ? & _); [by apply lookup_go_new|done].
  - intros Hm. destruct (untyped headers) eqn:Hu; [by apply run_Message_untyped|].
    unfold Message_dropped.
    rewrite run_cons. cbn [step]. rewrite run_cons, step_Run_new by done.
    unfold Message_run. cbn [channel go]. rewrite Hm, Hu.
    by rewrite update_as_go, with_channel_same by done.
  - intros Hw. apply misaddressed_false. by left.
Qed.

(** C8: a message whose header has neither type nor responseType is
    discarded in one step, before the table lookup and the listener loop:
    the Channel and all other goroutines are unchanged, no callback is
    invoked, and the only call made is the log line (made when the message
    went past the addressing test of line 62). *)
Theorem Message_without_type_is_dropped s (message : api.CastMessage)
    (headers : PayloadHeaders) :
  Type_ headers = "" →
  ResponseType headers = "" →
  run (Message_dropped (length (goroutines s)) message headers) s =
    Some (go (GoMessage message headers MReturned) s,
          if misaddressed (channel s) message then []
          else [EvLogErrorf headers message]).
Proof.
  intros Ht Hr.
  assert (untyped headers = true) as Hu by (by apply untyped_true).
  destruct (misaddressed (channel s) message) eqn:Hm.
  - by apply run_Message_misaddressed.
  - by apply run_Message_untyped.
Qed.

(** X17: what a dispatch that comes to the loop of lines 85-89 emits.  For
    a message that passes both guards, the callbacks invoked are those of
    the registered listeners whose responseType equals the type of the
    header, or its responseType when that is not empty: all of them, in the
    order of the registry.  The dispatch comes to the loop when the table
    has no entry for the requestId of the header, and when the entry's
    [Request] is in its select at the send of line 77.  [OnMessage]
    registers at the end of the registry, so a new listener is called after
    the earlier ones. *)
Theorem Message_fans_out_in_registration_order s (message : api.CastMessage)
    (headers : PayloadHeaders) :
  misaddressed (channel s) message = false →
  untyped headers = false →
  let g := length (goroutines s) in
  let evs := fanout (listeners (channel s)) message headers in
  invoked evs =
    (λ l, (callback l, message)) <$>
      List.filter (λ l, listens l headers) (listeners (channel s)) ∧
  (∀ l : @channelListener Callback,
     listens l headers = true ↔
     responseType l = Type_ headers ∨
     (ResponseType headers ≠ "" ∧ responseType l = ResponseType headers)) ∧
  ((∀ r, correlated headers = Some r → inFlight (channel s) !! r = None) →
     run (Message_uncorrelated g message headers) s =
       Some (go (GoMessage message headers MReturned) s, evs)) ∧
  (∀ r listener ctx payload id,
     correlated headers = Some r →
     inFlight (channel s) !! r = Some listener →
     goroutines s !! listener = Some (GoRequest ctx payload id RSelect) →
     ∃ s', run (Message_correlated g message headers) s = Some (s', evs)) ∧
  (∀ key cb,
     let l := {| responseType := key; callback := cb |} in
     step (CallOnMessage key cb) s =
       Some (with_channel (OnMessage key cb (channel s)) s, []) ∧
     listeners (OnMessage key cb (channel s)) = listeners (channel s) ++ [l] ∧
     fanout (listeners (OnMessage key cb (channel s))) message headers =
       evs ++ (if listens l headers then [EvCallback cb message] else [])).
Proof.
  intros Hm Hu g evs. split; [apply invoked_fanout|].
  split; [intros l; apply listens_true|].
  split; [intros Hr; by apply run_Message_uncorrelated|].
  split.
  - intros r listener ctx payload id Hr Hl Hg. eexists.
    by eapply run_Message_correlated.
  - intros key cb l. split; [done|]. split; [done|].
    subst l evs. unfold OnMessage. cbn [listeners set_listeners].
    rewrite fanout_app. cbn [fanout callback].
    by destruct (listens _ headers).
Qed.

End Properties.

(** ** The receiver-status exchange *)

Lemma reachable_after (sched : list (@label PayloadHeaders nat)) :
  is_Some (run sched (boot Demo.c)) →
  Z.of_nat (length sched) < max_int64 →
  reachable (Demo.after sched).
Proof.
  intros [[s evs] Hrun] Hlen. unfold Demo.after. rewrite Hrun.
  by exists "sender-0", "receiver-0", Demo.ns, sched, evs.
Qed.


(** C2: the race that the code loses.  The dispatcher looks the entry up and
    finds it (line 73); the deadline passes and the select of [Request]
    takes the context's case; [Request] deletes the entry and returns
    [DeadlineExceeded].  The dispatcher is then in the send of line 77 on a
    channel that has no receiver left: it saw the entry present, and under
    every continuation it stays in that send, so the matching listener is
    never called. *)
Theorem cancellation_after_lookup_blocks_dispatch :
  let s := Demo.after Demo.race in
  let reply := Demo.RECEIVER_STATUS (Some 1) in
  (∃ evs, run Demo.race (boot Demo.c) = Some (s, evs)) ∧
  goroutines s !! 0%nat =
    Some (GoRequest 0 (PayloadHeaders_setRequestId 1 Demo.GET_STATUS) 1
            (RReturned None (Some DeadlineExceeded))) ∧
  inFlight (channel s) !! 1 = None ∧
  goroutines s !! 1%nat = Some (GoMessage Demo.from_receiver reply (MSend 1 0%nat)) ∧
  listens {| responseType := "RECEIVER_STATUS"; callback := 7%nat |} reply = true ∧
  ∀ sched s' evs',
    run sched s = Some (s', evs') →
    goroutines s' !! 1%nat = Some (GoMessage Demo.from_receiver reply (MSend 1 0%nat)).
Proof.
  intros s reply.
  split; [eexists; vm_compute; reflexivity|].
  split; [vm_compute; reflexivity|].
  split; [vm_compute; reflexivity|].
  split; [vm_compute; reflexivity|].
  split; [vm_compute; reflexivity|].
  intros sched s' evs' Hrun.
  assert (send_blocked s 1 0 Demo.from_receiver reply 1) as Hb.
  { split; [vm_compute; reflexivity|]. do 5 eexists. vm_compute. reflexivity. }
  by destruct (run_send_blocked _ _ _ _ _ _ _ _ _ Hb Hrun) as [? _].
Qed.

(** C6: a message that completes neither the request nor the listener.
    Request 1 waits in its select with its entry in the table, and a
    listener is registered for the type of the reply.  The reply passes both
    guards and carries requestId 1; [Message] finds the entry (line 73), and
    the deadline passes before the send of line 77 is received.  [Request]
    returns [DeadlineExceeded] without the message, and the dispatcher is
    left in the send: under every continuation it takes no step, so the loop
    of lines 85-89 is never run and the callback of the matching listener is
    never invoked.  The send of line 77 stands between the lookup and the
    loop; it is the defect of C2. *)
Theorem matching_message_completes_neither_Request_nor_listener :
  let s0 := Demo.after Demo.waiting in
  let reply := Demo.RECEIVER_STATUS (Some 1) in
  let l := {| responseType := "RECEIVER_STATUS"; callback := 7%nat |} in
  let s := Demo.after Demo.race in
  reachable s0 ∧
  goroutines s0 !! 0%nat =
    Some (GoRequest 0 (PayloadHeaders_setRequestId 1 Demo.GET_STATUS) 1 RSelect) ∧
  inFlight (channel s0) !! 1 = Some 0%nat ∧
  misaddressed (channel s0) Demo.from_receiver = false ∧
  untyped reply = false ∧
  correlated reply = Some 1 ∧
  l ∈ listeners (channel s0) ∧
  listens l reply = true ∧
  run Session.lookup_then_deadline s0 = Some (s, []) ∧
  goroutines s !! 0%nat =
    Some (GoRequest 0 (PayloadHeaders_setRequestId 1 Demo.GET_STATUS) 1
            (RReturned None (Some DeadlineExceeded))) ∧
  invoked (Demo.trace Demo.race) = [] ∧
  ∀ sched s' evs',
    run sched s = Some (s', evs') →
    goroutines s' !! 1%nat = Some (GoMessage Demo.from_receiver reply (MSend 1 0%nat)) ∧
    step (Run 1) s' = None ∧
    step (Handoff 1) s' = None.
Proof.
  intros s0 reply l s.
  split; [apply reachable_after; [by eexists|vm_compute; reflexivity]|].
  split; [vm_compute; reflexivity|].
  split; [vm_compute; reflexivity|].
  split; [vm_compute; reflexivity|].
  split; [vm_compute; reflexivity|].
  split; [vm_compute; reflexivity|].
  split; [apply list_elem_of_here|].
  split; [vm_compute; reflexivity|].
  split; [vm_compute; reflexivity|].
  split; [vm_compute; reflexivity|].
  split; [vm_compute; reflexivity|].
  intros sched s' evs' Hrun.
  assert (send_blocked s 1 0 Demo.from_receiver reply 1) as Hb.
  { split; [vm_compute; reflexivity|]. do 5 eexists. vm_compute. reflexivity. }
  pose proof (run_send_blocked _ _ _ _ _ _ _ _ _ Hb Hrun) as Hb'.
  split; [by destruct Hb'|]. by eapply send_blocked_takes_no_step.
Qed.

(** C9: matching listeners that are never invoked.  Three listeners are
    registered, the first and the third for the type of the reply, and
    request 1 waits in its select.  The reply passes both guards, and the
    loop of lines 85-89 would invoke the first and the third callback, in
    this order.  [Message] finds the entry of request 1 (line 73) and the
    deadline passes before the send of line 77 is received: no callback is
    invoked, then or under any continuation, since the dispatcher never
    leaves the send.  It is the defect of C2. *)
Theorem matching_listeners_are_never_invoked_after_the_race :
  let s0 := Demo.after Session.three_waiting in
  let reply := Demo.RECEIVER_STATUS (Some 1) in
  let s := Demo.after (Session.three_waiting ++ Session.lookup_then_deadline) in
  reachable s0 ∧
  listeners (channel s0) =
    [{| responseType := "RECEIVER_STATUS"; callback := 7%nat |};
     {| responseType := "MEDIA_STATUS"; callback := 8%nat |};
     {| responseType := "RECEIVER_STATUS"; callback := 9%nat |}] ∧
  misaddressed (channel s0) Demo.from_receiver = false ∧
  untyped reply = false ∧
  invoked (fanout (P:=PayloadHeaders) (listeners (channel s0)) Demo.from_receiver
             reply) =
    [(7%nat, Demo.from_receiver); (9%nat, Demo.from_receiver)] ∧
  run Session.lookup_then_deadline s0 = Some (s, []) ∧
  listeners (channel s) = listeners (channel s0) ∧
  invoked (Demo.trace (Session.three_waiting ++ Session.lookup_then_deadline)) = [] ∧
  ∀ sched s' evs',
    run sched s = Some (s', evs') →
    goroutines s' !! 1%nat = Some (GoMessage Demo.from_receiver reply (MSend 1 0%nat)) ∧
    step (Run 1) s' = None ∧
    step (Handoff 1) s' = None.
Proof.
  intros s0 reply s.
  split; [apply reachable_after; [by eexists|vm_compute; reflexivity]|].
  split; [vm_compute; reflexivity|].
  split; [vm_compute; reflexivity|].
  split; [vm_compute; reflexivity|].
  split; [vm_compute; reflexivity|].
  split; [vm_compute; reflexivity|].
  split; [vm_compute; reflexivity|].
  split; [vm_compute; reflexivity|].
  intros sched s' evs' Hrun.
  assert (send_blocked s 1 0 Demo.from_receiver reply 1) as Hb.
  { split; [vm_compute; reflexivity|]. do 5 eexists. vm_compute. reflexivity. }
  pose proof (run_send_blocked _ _ _ _ _ _ _ _ _ Hb Hrun) as Hb'.
  split; [by destruct Hb'|]. by eapply send_blocked_takes_no_step.
Qed.

(** C10: a requestId that was set is read back; reading a header whose
    RequestId was never set panics on the nil pointer, and reading succeeds
    exactly when a requestId is present. *)
Theorem getRequestId_setRequestId_partial :
  (∀ (h : PayloadHeaders) (id : Z),
      PayloadHeaders_getRequestId (PayloadHeaders_setRequestId id h) = Returns id) ∧
  (∀ h : PayloadHeaders,
      RequestId h = None → PayloadHeaders_getRequestId h = Panics NilDereference) ∧
  (∀ h : PayloadHeaders,
      (∃ id, PayloadHeaders_getRequestId h = Returns id) ↔ is_Some (RequestId h)).
Proof.
  repeat split.
  - intros h Hnil. unfold PayloadHeaders_getRequestId. by rewrite Hnil.
  - intros [id Hid]. unfold PayloadHeaders_getRequestId in Hid.
    destruct (RequestId h); [eauto | discriminate].
  - intros [id Hid]. exists id. unfold PayloadHeaders_getRequestId. by rewrite Hid.
Qed.

(** ** The theorems at work on the receiver-status exchange *)

Lemma reachable_listening : reachable (Demo.after Demo.listening).
Proof.
  apply reachable_after; [by eexists|]. vm_compute. reflexivity.
Defined.

Lemma Request_returns_the_correlated_Message_witness :
  reachable (Demo.after Demo.listening) ∧
  ∃ s2 : @system PayloadHeaders nat,
    goroutines s2 !! 0%nat =
      Some (GoRequest 0 (PayloadHeaders_setRequestId 1 Demo.GET_STATUS) 1
              (RReturned (Some Demo.from_receiver) None)) ∧
    Message_lookup (channel s2) (Demo.RECEIVER_STATUS (Some 1)) = MRange.
Proof.
  split; [exact reachable_listening|].
  destruct (Request_returns_the_correlated_Message (Demo.after Demo.listening) 0%nat
              Demo.GET_STATUS Demo.from_receiver Demo.from_receiver
              (Demo.RECEIVER_STATUS (Some 1)) (Demo.RECEIVER_STATUS (Some 1))
              reachable_listening eq_refl eq_refl eq_refl eq_refl)
    as [Hcall _].
  destruct (Hcall eq_refl eq_refl)
    as (s1 & evs1 & s2 & _ & _ & _ & _ & _ & Hg & _ & Hl & _).
  exists s2. split; [exact Hg|exact Hl].
Defined.

Lemma Request_send_failure_leaves_no_entry_witness :
  reachable (Demo.after Demo.waiting) ∧
  ∃ s2 : @system PayloadHeaders nat,
    goroutines s2 !! 1%nat =
      Some (GoRequest 3 (PayloadHeaders_setRequestId 2 Demo.GET_STATUS) 2
              (RReturned None (Some (IOError "broken pipe")))) ∧
    inFlight (channel s2) !! 2 = None ∧
    inFlight (channel s2) = inFlight (channel (Demo.after Demo.waiting)).
Proof.
  assert (reachable (Demo.after Demo.waiting)) as Hs.
  { apply reachable_after; [by eexists|]. vm_compute. reflexivity. }
  split; [exact Hs|].
  destruct (Request_send_failure_leaves_no_entry (Demo.after Demo.waiting) 3%nat
              Demo.GET_STATUS (IOError "broken pipe") Hs)
    as [(s1 & s2 & evs & _ & _ & _ & _ & Hg & Ht & Hsame) _].
  exists s2. split; [exact Hg|]. split; [exact Ht|exact Hsame].
Defined.

Lemma Request_gives_up_and_late_Message_is_dropped_witness :
  reachable (Demo.after Demo.listening) ∧
  ∃ s2 : @system PayloadHeaders nat,
    goroutines s2 !! 0%nat =
      Some (GoRequest 0 (PayloadHeaders_setRequestId 1 Demo.GET_STATUS) 1
              (RReturned None (Some DeadlineExceeded))) ∧
    inFlight (channel s2) !! 1 = None ∧
    run (Message_uncorrelated 1 Demo.from_receiver (Demo.RECEIVER_STATUS (Some 1))) s2 =
      Some (go (GoMessage Demo.from_receiver (Demo.RECEIVER_STATUS (Some 1)) MReturned) s2,
            fanout (listeners (channel s2)) Demo.from_receiver
              (Demo.RECEIVER_STATUS (Some 1))).
Proof.
  split; [exact reachable_listening|].
  destruct (Request_gives_up_and_late_Message_is_dropped (Demo.after Demo.listening)
              0%nat Demo.GET_STATUS Deadline Demo.from_receiver
              (Demo.RECEIVER_STATUS (Some 1))
              reachable_listening eq_refl eq_refl eq_refl)
    as [(s1 & evs1 & s2 & e & _ & _ & _ & Hg & He & Ht & _ & Hrun & _) _].
  exists s2. rewrite (He eq_refl) in Hg.
  split; [exact Hg|]. split; [exact Ht|exact Hrun].
Defined.


Lemma correlation_and_fanout_are_independent_witness :
  ∃ s' : @system PayloadHeaders nat,
    run (Message_correlated 1 Demo.from_receiver (Demo.RECEIVER_STATUS (Some 1)))
        (Demo.after Demo.waiting) =
      Some (s', [EvCallback 7%nat Demo.from_receiver]) ∧
    goroutines s' !! 0%nat =
      Some (GoRequest 0 (PayloadHeaders_setRequestId 1 Demo.GET_STATUS) 1
              (RReturned (Some Demo.from_receiver) None)) ∧
    inFlight (channel s') = delete 1 (inFlight (channel (Demo.after Demo.waiting))).
Proof.
  destruct (correlation_and_fanout_are_independent (Demo.after Demo.waiting)
              Demo.from_receiver (Demo.RECEIVER_STATUS (Some 1)) 1 0%nat 0%nat
              (PayloadHeaders_setRequestId 1 Demo.GET_STATUS) 1
              {| responseType := "RECEIVER_STATUS"; callback := 7%nat |}
              eq_refl eq_refl eq_refl eq_refl eq_refl)
    as (s' & evs & Hrun & Hg & Ht & -> & _).
  - apply list_elem_of_here.
  - reflexivity.
  - exists s'. split; [exact Hrun|]. split; [exact Hg|exact Ht].
Defined.

Lemma Message_without_type_is_dropped_witness :
  run (Message_dropped 1 Demo.from_receiver Demo.no_type) (Demo.after Demo.waiting) =
    Some (go (GoMessage Demo.from_receiver Demo.no_type MReturned)
            (Demo.after Demo.waiting),
          [EvLogErrorf Demo.no_type Demo.from_receiver]).
Proof.
  exact (Message_without_type_is_dropped (Demo.after Demo.waiting) Demo.from_receiver
           Demo.no_type eq_refl eq_refl).
Defined.

Lemma Message_fans_out_in_registration_order_witness :
  invoked (fanout (P:=PayloadHeaders)
             (listeners (channel (Demo.after Session.three_listening)))
             Demo.from_receiver (Demo.RECEIVER_STATUS None)) =
    [(7%nat, Demo.from_receiver); (9%nat, Demo.from_receiver)] ∧
  run (Message_uncorrelated 0 Demo.from_receiver (Demo.RECEIVER_STATUS None))
      (Demo.after Session.three_listening) =
    Some (go (GoMessage Demo.from_receiver (Demo.RECEIVER_STATUS None) MReturned)
            (Demo.after Session.three_listening),
          [EvCallback 7%nat Demo.from_receiver; EvCallback 9%nat Demo.from_receiver]) ∧
  (∃ s' : @system PayloadHeaders nat,
     run (Message_correlated 1 Demo.from_receiver (Demo.RECEIVER_STATUS (Some 1)))
         (Demo.after Session.three_waiting) =
       Some (s', [EvCallback 7%nat Demo.from_receiver;
                  EvCallback 9%nat Demo.from_receiver])).
Proof.
  destruct (Message_fans_out_in_registration_order (Demo.after Session.three_listening)
              Demo.from_receiver (Demo.RECEIVER_STATUS None) eq_refl eq_refl)
    as (Hinv & _ & Hrun & _).
  destruct (Message_fans_out_in_registration_order (Demo.after Session.three_waiting)
              Demo.from_receiver (Demo.RECEIVER_STATUS (Some 1)) eq_refl eq_refl)
    as (_ & _ & _ & Hcorrelated & _).
  split; [exact Hinv|]. split.
  - apply Hrun. intros r Hr. discriminate Hr.
  - exact (Hcorrelated 1 0%nat 0%nat (PayloadHeaders_setRequestId 1 Demo.GET_STATUS) 1
             eq_refl eq_refl eq_refl).
Defined.

Lemma Message_addressing_filter_witness :
  misaddressed Demo.c Demo.broadcast = false ∧
  run (Message_dropped 0 Demo.from_receiver (Demo.RECEIVER_STATUS None))
      (boot (P:=PayloadHeaders)
         (NewChannel (Callback:=nat) "sender-0" "receiver-0" "urn:x-cast:com.google.cast.media")) =
    Some (go (GoMessage Demo.from_receiver (Demo.RECEIVER_STATUS None) MReturned)
            (boot (NewChannel "sender-0" "receiver-0" "urn:x-cast:com.google.cast.media")),
          []).
Proof.
  split.
  - apply (Message_addressing_filter (boot (P:=PayloadHeaders) Demo.c) Demo.broadcast
             (Demo.RECEIVER_STATUS None)). reflexivity.
  - apply (Message_addressing_filter
             (boot (P:=PayloadHeaders)
                (NewChannel (Callback:=nat) "sender-0" "receiver-0"
                   "urn:x-cast:com.google.cast.media"))
             Demo.from_receiver (Demo.RECEIVER_STATUS None)). reflexivity.
Defined.

Lemma getRequestId_setRequestId_partial_witness :
  PayloadHeaders_getRequestId (PayloadHeaders_setRequestId 7 Demo.GET_STATUS) = Returns 7 ∧
  PayloadHeaders_getRequestId Demo.GET_STATUS = Panics NilDereference.
Proof.
  destruct getRequestId_setRequestId_partial as (Hset & Hnil & _).
  split; [apply Hset|apply Hnil; reflexivity].
Defined.

(** * More of the Channel *)

Section Overlapping_calls.
Context {P : Type} `{!Payload P} {Callback : Type}.
Implicit Types (s : @system P Callback) (c : @Channel Callback).

Ltac lens := unfold with_channel, update; simpl; by rewrite ?length_insert.

(** X1: one [Request] that gives up leaves the others alone.  When two
    requests wait in their selects and the context of the first is done,
    the first returns the context's error and removes its own entry only:
    the second still waits, its entry is still in the table, and a [Message]
    carrying its requestId is then delivered to it. *)
Theorem cancelled_Request_leaves_the_others s (g1 g2 ctx1 ctx2 : nat) (payload1 payload2 : P)
    (r1 r2 : Z) (e : error) (message : api.CastMessage) (headers : PayloadHeaders) :
  reachable s →
  g1 ≠ g2 →
  goroutines s !! g1 = Some (GoRequest ctx1 payload1 r1 RSelect) →
  goroutines s !! g2 = Some (GoRequest ctx2 payload2 r2 RSelect) →
  inFlight (channel s) !! r2 = Some g2 →
  done s !! ctx1 = Some e →
  RequestId headers = Some r2 →
  misaddressed (channel s) message = false →
  untyped headers = false →
  ∃ s1 s2,
    run (Request_gives_up g1) s = Some (s1, []) ∧
    goroutines s1 !! g1 = Some (GoRequest ctx1 payload1 r1 (RReturned None (Some e))) ∧
    goroutines s1 !! g2 = Some (GoRequest ctx2 payload2 r2 RSelect) ∧
    inFlight (channel s1) !! r2 = Some g2 ∧
    run (Message_correlated (length (goroutines s1)) message headers) s1 =
      Some (s2, fanout (listeners (channel s1)) message headers) ∧
    goroutines s2 !! g2 =
      Some (GoRequest ctx2 payload2 r2 (RReturned (Some message) None)) ∧
    goroutines s2 !! g1 = Some (GoRequest ctx1 payload1 r1 (RReturned None (Some e))).
Proof.
  intros Hs Hne Hg1 Hg2 Htab He Hh Hm Hu.
  pose proof (reachable_consistent s Hs) as ((_ & Hkeys & _) & _ & Hd).
  assert (r1 ≠ r2) as Hr.
  { intros ->. apply Hne. by eapply Hd. }
  assert (r2 ≠ 0) as Hr0 by (specialize (Hkeys _ _ Htab); lia).
  pose proof (run_Request_gives_up s g1 ctx1 payload1 r1 e Hg1 He) as Hrun1.
  set (s1 := update g1 (GoRequest ctx1 payload1 r1 (RReturned None (Some e)))
               (set_inFlight (delete r1 (inFlight (channel s))) (channel s)) s) in *.
  assert (goroutines s1 !! g1 = Some (GoRequest ctx1 payload1 r1 (RReturned None (Some e))))
    as Hg1' by (by eapply lookup_update_same).
  assert (goroutines s1 !! g2 = Some (GoRequest ctx2 payload2 r2 RSelect)) as Hg2'.
  { unfold s1. by rewrite lookup_update_other. }
  assert (inFlight (channel s1) !! r2 = Some g2) as Htab'.
  { unfold s1. cbn [channel update inFlight set_inFlight]. by rewrite lookup_delete_ne. }
  pose proof (run_Message_correlated s1 message headers r2 g2 ctx2 payload2 r2 Hm Hu
                (correlated_RequestId _ _ Hh Hr0) Htab' Hg2') as Hrun2.
  eexists s1, _. split; [exact Hrun1|]. split; [done|]. split; [done|]. split; [done|].
  split; [exact Hrun2|]. split.
  - apply lookup_go_old. by eapply lookup_update_same.
  - apply lookup_go_old. by rewrite lookup_update_other.
Qed.

Lemma run_Request_until_send s g ctx payload :
  length (goroutines s) = g →
  run (Request_until_send g ctx payload) s =
  let v := AddInt64 (requestId (channel s)) 1 in
  let id := to_int v in
  Some (go (GoRequest ctx (setRequestId id payload) id RSend)
          (with_channel
             (set_inFlight (<[id := g]> (inFlight (channel s)))
                (set_requestId v (channel s))) s),
        [EvSetRequestId id]).
Proof.
  intros Hg. unfold Request_until_send.
  rewrite run_cons. cbn [step]. rewrite run_cons, step_Run_new by done.
  unfold Request_run at 1. rewrite update_as_go by done.
  rewrite run_cons, step_Run_new by lens.
  unfold Request_run at 1. rewrite update_as_go by lens.
  reflexivity.
Qed.

Lemma run_Message_until_send s message headers r listener :
  misaddressed (channel s) message = false →
  untyped headers = false →
  correlated headers = Some r →
  inFlight (channel s) !! r = Some listener →
  run (Message_until_send (length (goroutines s)) message headers) s =
  Some (go (GoMessage message headers (MSend r listener)) s, []).
Proof.
  intros Hm Hu Hr Hl. unfold Message_until_send.
  rewrite run_cons. cbn [step]. rewrite run_cons, step_Run_new by done.
  unfold Message_run. cbn [channel go]. rewrite Hm, Hu.
  rewrite (Message_lookup_found _ _ _ _ Hr Hl).
  by rewrite update_as_go, with_channel_same by done.
Qed.

Lemma run_Message_after_send s g message headers r listener ctx payload id :
  length (goroutines s) = g →
  goroutines s !! listener = Some (GoRequest ctx payload id RSelect) →
  run [Handoff g; Run g; Run g] (go (GoMessage message headers (MSend r listener)) s) =
  Some (go (GoMessage message headers MReturned)
          (update listener (GoRequest ctx payload id (RReturned (Some message) None))
             (set_inFlight (delete r (inFlight (channel s))) (channel s)) s),
        fanout (listeners (channel s)) message headers).
Proof.
  intros Hlen Hg.
  pose proof (lookup_lt_Some _ _ _ Hg) as Hlt.
  rewrite run_cons. unfold step at 1.
  rewrite lookup_go_new, (lookup_go_old _ _ _ _ Hg) by done.
  rewrite update_under_go by done.
  rewrite update_as_go by lens.
  rewrite run_cons, step_Run_new by lens.
  unfold Message_run at 1.
  rewrite update_as_go by lens.
  rewrite run_cons, step_Run_new by lens.
  unfold Message_run at 1.
  rewrite update_as_go by lens.
  cbn [run app]. by rewrite app_nil_r.
Qed.

(** X2: a reply that arrives before the write has returned.  [Request]
    inserts its entry (line 107) before it calls [Send] (line 110), so a
    [Message] carrying the new requestId finds the entry while [Request] is
    still in the write.  The dispatcher then waits in the send of line 77:
    it can neither hand the message over nor go on.  Once the write returns
    without an error and [Request] reaches its select, the message is handed
    over and becomes the result, and the table is as it was before the
    call. *)
Theorem early_reply_waits_for_the_select s (ctx : nat) (payload : P)
    (message : api.CastMessage) (headers : PayloadHeaders) :
  reachable s →
  let g := length (goroutines s) in
  let r := requestId (channel s) + 1 in
  RequestId headers = Some r →
  misaddressed (channel s) message = false →
  untyped headers = false →
  ∃ s1 s2,
    run (Request_until_send g ctx payload ++ Message_until_send (S g) message headers) s =
      Some (s1, [EvSetRequestId r]) ∧
    goroutines s1 !! g = Some (GoRequest ctx (setRequestId r payload) r RSend) ∧
    goroutines s1 !! S g = Some (GoMessage message headers (MSend r g)) ∧
    step (Handoff (S g)) s1 = None ∧
    step (Run (S g)) s1 = None ∧
    run [ConnSend g None; Handoff (S g); Run (S g); Run (S g)] s1 =
      Some (s2, Send (setRequestId r payload) (channel s) ::
                fanout (listeners (channel s)) message headers) ∧
    goroutines s2 !! g =
      Some (GoRequest ctx (setRequestId r payload) r (RReturned (Some message) None)) ∧
    goroutines s2 !! S g = Some (GoMessage message headers MReturned) ∧
    inFlight (channel s2) = inFlight (channel s).
Proof.
  intros Hs g r Hh Hm Hu.
  destruct (next_requestId s Hs) as (Hadd & Hint & Hr0 & Hfresh).
  pose proof (run_Request_until_send s g ctx payload eq_refl) as HrunA.
  cbn zeta in HrunA. rewrite Hadd, Hint in HrunA. fold r in HrunA.
  set (c1 := set_inFlight (<[r:=g]> (inFlight (channel s))) (set_requestId r (channel s)))
    in *.
  set (sA := go (GoRequest ctx (setRequestId r payload) r RSend) (with_channel c1 s)) in *.
  assert (length (goroutines sA) = S g) as HlenA by (unfold sA; by rewrite length_go).
  assert (inFlight (channel sA) !! r = Some g) as HtabA by apply lookup_insert_eq.
  pose proof (run_Message_until_send sA message headers r g Hm Hu
                (correlated_RequestId _ _ Hh Hr0) HtabA) as HrunB.
  rewrite HlenA in HrunB.
  set (s1 := go (GoMessage message headers (MSend r g)) sA) in *.
  assert (goroutines s1 !! g = Some (GoRequest ctx (setRequestId r payload) r RSend))
    as Hg1.
  { apply lookup_go_old. by apply lookup_go_new. }
  assert (goroutines s1 !! S g = Some (GoMessage message headers (MSend r g))) as Hgm1
    by (by apply lookup_go_new).
  set (sA' := go (GoRequest ctx (setRequestId r payload) r RSelect) (with_channel c1 s)).
  assert (step (ConnSend g None) s1 =
          Some (go (GoMessage message headers (MSend r g)) sA',
                [Send (setRequestId r payload) (channel s)])) as Hsend.
  { unfold step. rewrite Hg1. unfold s1.
    rewrite update_under_go by (rewrite HlenA; lia).
    unfold sA. by rewrite update_as_go by done. }
  assert (goroutines sA' !! g = Some (GoRequest ctx (setRequestId r payload) r RSelect))
    as HgA' by (by apply lookup_go_new).
  assert (length (goroutines sA') = S g) as HlenA' by (unfold sA'; by rewrite length_go).
  pose proof (run_Message_after_send sA' (S g) message headers r g ctx
                (setRequestId r payload) r HlenA' HgA') as Htail.
  eexists s1, _. split; [by rewrite (run_app _ _ _ _ _ HrunA), HrunB|].
  split; [done|]. split; [done|].
  split; [unfold step; by rewrite Hgm1, Hg1|].
  split; [unfold step; by rewrite Hgm1|].
  split; [rewrite run_cons, Hsend, Htail; reflexivity|].
  split; [apply lookup_go_old; by eapply lookup_update_same|].
  split; [by apply lookup_go_new; rewrite length_update|].
  cbn. rewrite delete_insert_eq. by apply delete_id.
Qed.

(** X3: the same lookup, followed by a write that fails.  [Request]
    removes its entry and returns the write's error without ever receiving
    from its channel, so the dispatcher that found the entry stays in the
    send of line 77 under every continuation. *)
Theorem failed_write_after_lookup_blocks_dispatch s (ctx : nat) (payload : P)
    (err : error) (message : api.CastMessage) (headers : PayloadHeaders) :
  reachable s →
  let g := length (goroutines s) in
  let r := requestId (channel s) + 1 in
  RequestId headers = Some r →
  misaddressed (channel s) message = false →
  untyped headers = false →
  ∃ s1,
    run (Request_until_send g ctx payload ++ Message_until_send (S g) message headers ++
         [ConnSend g (Some err); Run g]) s =
      Some (s1, [EvSetRequestId r; Send (setRequestId r payload) (channel s)]) ∧
    goroutines s1 !! g =
      Some (GoRequest ctx (setRequestId r payload) r (RReturned None (Some err))) ∧
    inFlight (channel s1) = inFlight (channel s) ∧
    ∀ sched s2 evs,
      run sched s1 = Some (s2, evs) →
      goroutines s2 !! S g = Some (GoMessage message headers (MSend r g)).
Proof.
  intros Hs g r Hh Hm Hu.
  destruct (next_requestId s Hs) as (Hadd & Hint & Hr0 & Hfresh).
  pose proof (run_Request_until_send s g ctx payload eq_refl) as HrunA.
  cbn zeta in HrunA. rewrite Hadd, Hint in HrunA. fold r in HrunA.
  set (c1 := set_inFlight (<[r:=g]> (inFlight (channel s))) (set_requestId r (channel s)))
    in *.
  set (sA := go (GoRequest ctx (setRequestId r payload) r RSend) (with_channel c1 s)) in *.
  assert (length (goroutines sA) = S g) as HlenA by (unfold sA; by rewrite length_go).
  assert (inFlight (channel sA) !! r = Some g) as HtabA by apply lookup_insert_eq.
  pose proof (run_Message_until_send sA message headers r g Hm Hu
                (correlated_RequestId _ _ Hh Hr0) HtabA) as HrunB.
  rewrite HlenA in HrunB.
  set (sB := go (GoMessage message headers (MSend r g)) sA) in *.
  assert (goroutines sB !! g = Some (GoRequest ctx (setRequestId r payload) r RSend))
    as HgB.
  { apply lookup_go_old. by apply lookup_go_new. }
  set (sC := update g (GoRequest ctx (setRequestId r payload) r (RSendFailed err))
               (channel sB) sB).
  assert (step (ConnSend g (Some err)) sB =
          Some (sC, [Send (setRequestId r payload) (channel s)])) as Hsend.
  { unfold step. by rewrite HgB. }
  assert (goroutines sC !! g =
          Some (GoRequest ctx (setRequestId r payload) r (RSendFailed err))) as HgC
    by (by eapply lookup_update_same).
  set (s1 := update g (GoRequest ctx (setRequestId r payload) r (RReturned None (Some err)))
               (set_inFlight (delete r (inFlight (channel sC))) (channel sC)) sC).
  assert (step (Run g) sC = Some (s1, [])) as Hret.
  { unfold step. by rewrite HgC. }
  assert (goroutines s1 !! g =
          Some (GoRequest ctx (setRequestId r payload) r (RReturned None (Some err))))
    as Hg1 by (by eapply lookup_update_same).
  assert (goroutines s1 !! S g = Some (GoMessage message headers (MSend r g))) as Hgm1.
  { unfold s1, sC. rewrite !lookup_update_other by lia. by apply lookup_go_new. }
  exists s1. split.
  { rewrite (run_app _ _ _ _ _ HrunA), (run_app _ _ _ _ _ HrunB).
    rewrite run_cons, Hsend, run_cons, Hret. reflexivity. }
  split; [done|]. split.
  { cbn. rewrite delete_insert_eq. by apply delete_id. }
  intros sched s2 evs Hrun.
  assert (send_blocked s1 (S g) g message headers r) as Hb.
  { split; [done|]. by eexists _, _, _, _, _. }
  by destruct (run_send_blocked _ _ _ _ _ _ _ _ _ Hb Hrun) as [? _].
Qed.





(** X6: [Request] does not look at its context before it writes.  With a
    context that is already done it still takes a requestId, stamps the
    payload and hands it to the connection; only its select then returns the
    context's error, with the counter advanced and the table as before. *)
Theorem Request_writes_even_when_context_is_done s (ctx : nat) (payload : P) (e : error) :
  reachable s →
  done s !! ctx = Some e →
  let g := length (goroutines s) in
  let r := requestId (channel s) + 1 in
  ∃ s1,
    run (Request_until_select g ctx payload ++ Request_gives_up g) s =
      Some (s1, [EvSetRequestId r; Send (setRequestId r payload) (channel s)]) ∧
    goroutines s1 !! g =
      Some (GoRequest ctx (setRequestId r payload) r (RReturned None (Some e))) ∧
    requestId (channel s1) = r ∧
    inFlight (channel s1) = inFlight (channel s).
Proof.
  intros Hs He g r.
  destruct (next_requestId s Hs) as (Hadd & Hint & Hr0 & Hfresh).
  pose proof (run_Request_until_select s g ctx payload eq_refl) as Hrun1.
  cbn zeta in Hrun1. rewrite Hadd, Hint in Hrun1. fold r in Hrun1.
  set (s0 := go (GoRequest ctx (setRequestId r payload) r RSelect)
               (with_channel
                  (set_inFlight (<[r:=g]> (inFlight (channel s)))
                     (set_requestId r (channel s))) s)) in *.
  assert (goroutines s0 !! g = Some (GoRequest ctx (setRequestId r payload) r RSelect))
    as Hg0 by (by apply lookup_go_new).
  pose proof (run_Request_gives_up s0 g ctx _ r e Hg0 He) as Hrun2.
  eexists. split; [by rewrite (run_app _ _ _ _ _ Hrun1), Hrun2|].
  split; [by eapply lookup_update_same|]. split; [done|].
  cbn. rewrite delete_insert_eq. by apply delete_id.
Qed.
End Overlapping_calls.

Section Stamped_headers.
Context {Callback : Type}.
Implicit Types (s : @system PayloadHeaders Callback).

(** X7: the payload that [Request] hands to the connection carries the
    requestId under which [Request] waits, with its other header fields
    unchanged, and [getRequestId] reads that id back from it; a reply that
    echoes the payload's RequestId is correlated with this very request. *)
Theorem Request_stamps_the_id_it_waits_under s (ctx : nat) (payload reply : PayloadHeaders) :
  reachable s →
  let g := length (goroutines s) in
  let r := requestId (channel s) + 1 in
  ∃ s1 sent,
    run (Request_until_select g ctx payload) s =
      Some (s1, [EvSetRequestId r;
                 EvConnSend sent (sourceId (channel s)) (DestinationId (channel s))
                   (namespace (channel s))]) ∧
    PayloadHeaders_getRequestId sent = Returns r ∧
    Type_ sent = Type_ payload ∧
    ResponseType sent = ResponseType payload ∧
    inFlight (channel s1) !! r = Some g ∧
    (RequestId reply = RequestId sent →
     Message_lookup (channel s1) reply = MSend r g).
Proof.
  intros Hs g r.
  destruct (next_requestId s Hs) as (Hadd & Hint & Hr0 & Hfresh).
  pose proof (run_Request_until_select s g ctx payload eq_refl) as Hrun.
  cbn zeta in Hrun. rewrite Hadd, Hint in Hrun. fold r in Hrun.
  eexists _, (PayloadHeaders_setRequestId r payload).
  split; [exact Hrun|]. split; [done|]. split; [done|]. split; [done|].
  split; [apply lookup_insert_eq|].
  intros Hecho. apply Message_lookup_found; [|apply lookup_insert_eq].
  apply correlated_RequestId; [|done]. by rewrite Hecho.
Qed.
End Stamped_headers.

(** ** The theorems at work on two requests *)

Lemma cancelled_Request_leaves_the_others_witness :
  reachable (Demo.after Session.first_expired) ∧
  ∃ s2 : @system PayloadHeaders nat,
    goroutines s2 !! 1%nat =
      Some (GoRequest 3 (PayloadHeaders_setRequestId 2 Demo.GET_STATUS) 2
              (RReturned (Some Demo.from_receiver) None)) ∧
    goroutines s2 !! 0%nat =
      Some (GoRequest 0 (PayloadHeaders_setRequestId 1 Demo.GET_STATUS) 1
              (RReturned None (Some DeadlineExceeded))).
Proof.
  assert (reachable (Demo.after Session.first_expired)) as Hs.
  { apply reachable_after; [by eexists|]. vm_compute. reflexivity. }
  split; [exact Hs|].
  destruct (cancelled_Request_leaves_the_others (Demo.after Session.first_expired)
              0%nat 1%nat 0%nat 3%nat
              (PayloadHeaders_setRequestId 1 Demo.GET_STATUS)
              (PayloadHeaders_setRequestId 2 Demo.GET_STATUS) 1 2 DeadlineExceeded
              Demo.from_receiver (Demo.RECEIVER_STATUS (Some 2)) Hs)
    as (s1 & s2 & _ & _ & _ & _ & _ & Hg2 & Hg1);
    [lia|reflexivity|reflexivity|reflexivity|reflexivity|reflexivity|reflexivity
    |reflexivity|].
  exists s2. split; [exact Hg2|exact Hg1].
Defined.

Lemma early_reply_waits_for_the_select_witness :
  reachable (Demo.after Demo.listening) ∧
  ∃ s1 s2 : @system PayloadHeaders nat,
    step (Handoff 1) s1 = None ∧
    goroutines s2 !! 0%nat =
      Some (GoRequest 0 (PayloadHeaders_setRequestId 1 Demo.GET_STATUS) 1
              (RReturned (Some Demo.from_receiver) None)).
Proof.
  split; [exact reachable_listening|].
  destruct (early_reply_waits_for_the_select (Demo.after Demo.listening) 0%nat
              Demo.GET_STATUS Demo.from_receiver (Demo.RECEIVER_STATUS (Some 1))
              reachable_listening eq_refl eq_refl eq_refl)
    as (s1 & s2 & _ & _ & _ & Hblocked & _ & _ & Hg & _).
  exists s1, s2. split; [exact Hblocked|exact Hg].
Defined.

Lemma failed_write_after_lookup_blocks_dispatch_witness :
  reachable (Demo.after Demo.listening) ∧
  ∃ s1 : @system PayloadHeaders nat,
    goroutines s1 !! 0%nat =
      Some (GoRequest 0 (PayloadHeaders_setRequestId 1 Demo.GET_STATUS) 1
              (RReturned None (Some (IOError "broken pipe")))) ∧
    ∀ sched s2 evs,
      run sched s1 = Some (s2, evs) →
      goroutines s2 !! 1%nat =
        Some (GoMessage Demo.from_receiver (Demo.RECEIVER_STATUS (Some 1))
                (MSend 1 0%nat)).
Proof.
  split; [exact reachable_listening|].
  destruct (failed_write_after_lookup_blocks_dispatch (Demo.after Demo.listening)
              0%nat Demo.GET_STATUS (IOError "broken pipe") Demo.from_receiver
              (Demo.RECEIVER_STATUS (Some 1)) reachable_listening
              eq_refl eq_refl eq_refl)
    as (s1 & _ & Hg & _ & Hstuck).
  exists s1. split; [exact Hg|exact Hstuck].
Defined.



Lemma Request_writes_even_when_context_is_done_witness :
  reachable (Demo.after Session.cancelled_early) ∧
  ∃ s1 : @system PayloadHeaders nat,
    run (Request_until_select 0 5 Demo.GET_STATUS ++ Request_gives_up 0)
        (Demo.after Session.cancelled_early) =
      Some (s1, [EvSetRequestId 1;
                 Send (PayloadHeaders_setRequestId 1 Demo.GET_STATUS) Demo.c]) ∧
    goroutines s1 !! 0%nat =
      Some (GoRequest 5 (PayloadHeaders_setRequestId 1 Demo.GET_STATUS) 1
              (RReturned None (Some Canceled))).
Proof.
  assert (reachable (Demo.after Session.cancelled_early)) as Hs.
  { apply reachable_after; [by eexists|]. vm_compute. reflexivity. }
  split; [exact Hs|].
  destruct (Request_writes_even_when_context_is_done
              (Demo.after Session.cancelled_early) 5%nat Demo.GET_STATUS Canceled
              Hs eq_refl)
    as (s1 & Hrun & Hg & _).
  exists s1. split; [exact Hrun|exact Hg].
Defined.

Lemma Request_stamps_the_id_it_waits_under_witness :
  reachable (Demo.after Demo.listening) ∧
  ∃ (s1 : @system PayloadHeaders nat) (sent : PayloadHeaders),
    PayloadHeaders_getRequestId sent = Returns 1 ∧
    Message_lookup (channel s1) (Demo.RECEIVER_STATUS (Some 1)) = MSend 1 0%nat.
Proof.
  split; [exact reachable_listening|].
  destruct (Request_stamps_the_id_it_waits_under (Demo.after Demo.listening) 0%nat
              Demo.GET_STATUS (Demo.RECEIVER_STATUS (Some 1)) reachable_listening)
    as (s1 & sent & Hrun & Hget & _ & _ & _ & Hecho).
  exists s1, sent. split; [exact Hget|]. apply Hecho.
  injection Hrun as <- <-. reflexivity.
Defined.

(** * The command line tool *)

Module Tool.
Import Main.

(** ** Comparisons of binary64 *)

Lemma nan_is_not_below (f x : float) :
  is_nan f = true → (f <? x)%float = false ∧ (x <? f)%float = false.
Proof.
  unfold is_nan. intros Hnan. apply negb_true_iff in Hnan.
  rewrite FloatAxioms.eqb_spec in Hnan. rewrite !FloatAxioms.ltb_spec.
  assert (Prim2SF f = S754_nan) as ->.
  { destruct (Prim2SF f) as [sg|sg| |sg m e]; try done.
    - by destruct sg.
    - exfalso. revert Hnan. unfold SFeqb, SFcompare.
      rewrite Z.compare_refl, Pos.compare_cont_refl. by destruct sg. }
  split; [done|]. unfold SFltb, SFcompare. by destruct (Prim2SF x).
Qed.

Lemma SFcompare_antisym (x y : spec_float) :
  SFcompare y x = option_map CompOpp (SFcompare x y).
Proof.
  destruct x as [sx|sx| |sx mx ex], y as [sy|sy| |sy my ey]; simpl;
    try done; try (by destruct sx); try (by destruct sy);
    try (by destruct sx, sy).
  destruct sx, sy; simpl; try done; f_equal;
    rewrite (Z.compare_antisym ex ey); destruct (ex ?= ey); simpl; try done;
    rewrite (Pos.compare_cont_antisym mx my Eq); done.
Qed.

Lemma is_nan_Prim2SF (f : float) : is_nan f = false → Prim2SF f ≠ S754_nan.
Proof.
  unfold is_nan. intros Hnan. apply negb_false_iff in Hnan.
  rewrite FloatAxioms.eqb_spec in Hnan. by intros Heq; rewrite Heq in Hnan.
Qed.

Lemma not_below_is_at_least (f x : float) :
  is_nan f = false → is_nan x = false →
  (f <? x)%float = false → (x <=? f)%float = true.
Proof.
  intros Hf%is_nan_Prim2SF Hx%is_nan_Prim2SF.
  rewrite FloatAxioms.ltb_spec, FloatAxioms.leb_spec. unfold SFltb, SFleb.
  rewrite (SFcompare_antisym (Prim2SF f) (Prim2SF x)).
  destruct (SFcompare (Prim2SF f) (Prim2SF x)) as [[]|] eqn:Hc; simpl; try done.
  revert Hc. destruct (Prim2SF f), (Prim2SF x); simpl; try done.
Qed.

(** ** The tables of [minArgs] and [maxArgs] *)

Lemma minArgs_lookup (cmd : string) :
  minArgs !! cmd =
  if decide (cmd = "play") then Some 1
  else if decide (cmd = "pause") then Some 0
  else if decide (cmd = "stop") then Some 0
  else if decide (cmd = "quit") then Some 0
  else if decide (cmd = "volume") then Some 1
  else None.
Proof.
  unfold minArgs. rewrite !lookup_insert, lookup_empty.
  repeat case_decide; congruence.
Qed.

Lemma maxArgs_lookup (cmd : string) :
  maxArgs !! cmd =
  if decide (cmd = "play") then Some 2
  else if decide (cmd = "pause") then Some 0
  else if decide (cmd = "stop") then Some 0
  else if decide (cmd = "quit") then Some 0
  else if decide (cmd = "volume") then Some 1
  else None.
Proof.
  unfold maxArgs. rewrite !lookup_insert, lookup_empty.
  repeat case_decide; congruence.
Qed.

Section Facts.
Variable ParseFloat : string → float * option string.
Variable Sprintf_2f : float → string.
Variable World : Type.
Variable ask : call → World → reply * World.

Abbreviation state := (state World).
Abbreviation checkCommand := (checkCommand ParseFloat Sprintf_2f World).
Abbreviation validateFloat := (validateFloat ParseFloat Sprintf_2f).
Abbreviation accepted := (accepted ParseFloat Sprintf_2f).

(** ** [checkCommand] *)

Lemma state_eta (st : state) : {| trace := trace _ st ++ []; world := world _ st |} = st.
Proof. destruct st. simpl. by rewrite app_nil_r. Qed.

Ltac zltb :=
  repeat match goal with
         | |- context [(?a <? ?b)%Z] => destruct (Z.ltb_spec a b); try lia
         end.

Lemma accepted_play (args : list string) :
  accepted "play" args ↔ (length args = 1 ∨ length args = 2)%nat.
Proof.
  unfold Main.accepted. split.
  - intros [[_ H]|[[[H|[H|H]] _]|[H _]]]; done.
  - intros H. by left.
Qed.

Lemma accepted_without_arguments (cmd : string) (args : list string) :
  cmd = "pause" ∨ cmd = "stop" ∨ cmd = "quit" →
  accepted cmd args ↔ args = [].
Proof.
  intros Hcmd. unfold Main.accepted. split.
  - intros [[-> _]|[[_ H]|[-> _]]]; [|done|]; by destruct Hcmd as [?|[?|?]].
  - intros ->. right. by left.
Qed.

Lemma accepted_volume (args : list string) :
  accepted "volume" args ↔ ∃ a, args = [a] ∧ validateFloat a 0 1 = None.
Proof.
  unfold Main.accepted. split.
  - intros [[H _]|[[[H|[H|H]] _]|[_ H]]]; done.
  - intros H. right. by right.
Qed.

Lemma checkCommand_cases (cmd : string) (args : list string) (st : state) :
  ∃ ok out,
    checkCommand cmd args st =
      (inl ok, {| trace := trace _ st ++ out; world := world _ st |}) ∧
    (ok = true ↔ accepted cmd args) ∧
    (if ok then out = [] else ∃ text, out = [Printed text]).
Proof.
  unfold Main.checkCommand, at_key. rewrite minArgs_lookup, maxArgs_lookup.
  destruct (decide (cmd = "play")) as [->|Hplay].
  { cbn -[Z.ltb Z.of_nat length Main.accepted].
    unfold bind, Printf, ret.
    destruct args as [|a [|b [|c rest]]]; cbn [length]; zltb.
    - exists false. eexists. split; [done|]. rewrite accepted_play.
      split; [split; [done|cbn; lia]|eauto].
    - exists true, []. rewrite state_eta. split; [done|]. rewrite accepted_play.
      split; [split; [cbn; lia|done]|done].
    - exists true, []. rewrite state_eta. split; [done|]. rewrite accepted_play.
      split; [split; [cbn; lia|done]|done].
    - exists false. eexists. split; [done|]. rewrite accepted_play.
      split; [split; [done|cbn; lia]|eauto]. }
  assert (∀ text text',
            cmd = "pause" ∨ cmd = "stop" ∨ cmd = "quit" →
            ∃ ok out,
              (if Z.of_nat (length args) <? 0
               then bind World (Printf World text) (λ _, ret World false)
               else if 0 <? Z.of_nat (length args)
                    then bind World (Printf World text') (λ _, ret World false)
                    else ret World true) st =
                (inl ok, {| trace := trace _ st ++ out; world := world _ st |}) ∧
              (ok = true ↔ accepted cmd args) ∧
              (if ok then out = [] else ∃ text, out = [Printed text]))
    as Hnone.
  { intros text text' Hcmd. unfold bind, Printf, ret.
    destruct args as [|a rest]; cbn [length]; zltb.
    - exists true, []. rewrite state_eta. split; [done|].
      by rewrite accepted_without_arguments.
    - exists false. eexists. split; [done|].
      rewrite accepted_without_arguments by done. split; [done|eauto]. }
  destruct (decide (cmd = "pause")) as [->|Hpause].
  { cbn -[Z.ltb Z.of_nat length Main.accepted]. apply Hnone; auto. }
  destruct (decide (cmd = "stop")) as [->|Hstop].
  { cbn -[Z.ltb Z.of_nat length Main.accepted]. apply Hnone; auto. }
  destruct (decide (cmd = "quit")) as [->|Hquit].
  { cbn -[Z.ltb Z.of_nat length Main.accepted]. apply Hnone; auto. }
  clear Hnone.
  destruct (decide (cmd = "volume")) as [->|Hvolume].
  { cbn -[Z.ltb Z.of_nat length Main.validateFloat Main.accepted].
    unfold bind, Printf, ret, at_index.
    destruct args as [|a [|b rest]]; cbn [length]; zltb.
    - exists false. eexists. split; [done|]. rewrite accepted_volume.
      split; [|eauto]. split; [done|]. by intros (? & ? & _).
    - cbn -[Main.validateFloat Main.accepted].
      destruct (validateFloat a 0 1) as [text|] eqn:Hv.
      + exists false. eexists. split; [done|]. rewrite accepted_volume.
        split; [|eauto]. split; [done|]. intros (a' & [= <-] & Hv'). congruence.
      + exists true, []. rewrite state_eta. split; [done|].
        rewrite accepted_volume. split; [|done]. split; [eauto|done].
    - exists false. eexists. split; [done|]. rewrite accepted_volume.
      split; [|eauto]. split; [done|]. by intros (? & ? & _). }
  exists false. eexists. split; [done|]. split; [|eauto].
  split; [done|]. intros [[-> _]|[[[-> | [-> | ->]] _]|[-> _]]]; done.
Qed.

Lemma checkCommand_accepted (cmd : string) (args : list string) (st : state) :
  accepted cmd args → checkCommand cmd args st = (inl true, st).
Proof.
  intros Hacc. destruct (checkCommand_cases cmd args st) as (ok & out & -> & Hok & Hout).
  apply Hok in Hacc as ->. subst out. by rewrite state_eta.
Qed.

Lemma checkCommand_refused (cmd : string) (args : list string) (st : state) :
  ¬ accepted cmd args →
  ∃ text, checkCommand cmd args st =
            (inl false, {| trace := trace _ st ++ [Printed text]; world := world _ st |}).
Proof.
  intros Hacc. destruct (checkCommand_cases cmd args st) as (ok & out & -> & Hok & Hout).
  destruct ok; [by destruct Hacc; apply Hok|].
  destruct Hout as [text ->]. by exists text.
Qed.

(** X8: [checkCommand] returns true exactly for [play] with one or two
    arguments, for [pause], [stop] and [quit] with none, and for [volume]
    with one argument that [validateFloat] lets through, and it then prints
    nothing; in every other case it prints one message and returns
    false. *)
Theorem checkCommand_accepts_exactly (cmd : string) (args : list string) (st : state) :
  (accepted cmd args → checkCommand cmd args st = (inl true, st)) ∧
  (¬ accepted cmd args →
   ∃ text, checkCommand cmd args st =
             (inl false, {| trace := trace _ st ++ [Printed text]; world := world _ st |})).
Proof. split; [apply checkCommand_accepted|apply checkCommand_refused]. Qed.


Abbreviation M := (M World).
Abbreviation ret := (ret World).
Abbreviation bind := (bind World).
Abbreviation calling := (calling World ask).
Abbreviation checkErr := (checkErr World ask).
Abbreviation at_index := (at_index World).
Abbreviation from_index := (from_index World).
Abbreviation runCommand := (runCommand ParseFloat World ask).
Abbreviation connect := (connect World ask).
Abbreviation cliCommand := (cliCommand ParseFloat Sprintf_2f World ask).
Abbreviation scan := (scan ParseFloat Sprintf_2f World).
Abbreviation run_all := (run_all ParseFloat World ask).
Abbreviation scriptCommand := (scriptCommand ParseFloat Sprintf_2f World ask).
Abbreviation line_accepted := (line_accepted ParseFloat Sprintf_2f).
Abbreviation calls_in_bounds := (calls_in_bounds World).

(** ** What only makes calls and stays in bounds *)

Lemma calls_in_bounds_ret {A : Type} (a : A) : calls_in_bounds (ret a).
Proof. intros st. exists []. simpl. by rewrite app_nil_r. Qed.

Lemma calls_in_bounds_bind {A B : Type} (m : M A) (k : A → M B) :
  calls_in_bounds m → (∀ a, calls_in_bounds (k a)) → calls_in_bounds (bind m k).
Proof.
  intros Hm Hk st. destruct (Hm st) as (out & Ht & Hc & Hb). unfold Main.bind.
  destruct (m st) as [[a|h] st1]; simpl in *.
  - destruct (Hk a st1) as (out' & Ht' & Hc' & Hb'). exists (out ++ out').
    rewrite Ht', Ht, app_assoc. split; [done|]. split; [by apply Forall_app|done].
  - exists out. split; [done|]. split; [done|]. intros [= ->]. by apply Hb.
Qed.

Lemma calls_in_bounds_calling (c : call) : calls_in_bounds (calling c).
Proof.
  intros st. exists [Called c]. unfold Main.calling.
  destruct (ask c (world _ st)) as [r w]. simpl.
  split; [done|]. split; [|done]. apply Forall_singleton. by exists c.
Qed.

Lemma calls_in_bounds_checkErr (e : option string) : calls_in_bounds (checkErr e).
Proof.
  destruct e as [text|]; [|apply calls_in_bounds_ret].
  apply calls_in_bounds_bind; [apply calls_in_bounds_calling|].
  intros r. destruct (returns r); [apply calls_in_bounds_ret|].
  intros st. exists []. simpl. by rewrite app_nil_r.
Qed.

Lemma at_index_Some {A : Type} (xs : list A) (i : nat) (x : A) :
  xs !! i = Some x → at_index xs i = ret x.
Proof. unfold Main.at_index. by intros ->. Qed.

Lemma from_index_1 {A : Type} (x : A) (xs : list A) :
  from_index (x :: xs) 1 = ret xs.
Proof. done. Qed.

Lemma bind_ret {A B : Type} (a : A) (k : A → M B) : bind (ret a) k = k a.
Proof. done. Qed.

Create HintDb bounds discriminated.
#[local] Hint Resolve calls_in_bounds_ret calls_in_bounds_calling
  calls_in_bounds_checkErr : bounds.
#[local] Hint Extern 2 (Main.calls_in_bounds _ (Main.bind _ _ _)) =>
  apply calls_in_bounds_bind; [|intros ?] : bounds.

Lemma accepted_command_runs_in_bounds_aux (cmd : string) (args : list string) :
  accepted cmd args → calls_in_bounds (runCommand cmd args).
Proof.
  intros [[-> Hlen]|[[[-> | [-> | ->]] ->]|[-> (a & -> & _)]]];
    unfold Main.runCommand; cbn [String.eqb Ascii.eqb Bool.eqb].
  - destruct args as [|url [|contentType [|? ?]]]; cbn in Hlen; try lia.
    + rewrite (at_index_Some _ _ url) by done. cbn [length Nat.ltb Nat.leb].
      auto 10 with bounds.
    + rewrite (at_index_Some _ _ url) by done. cbn [length Nat.ltb Nat.leb].
      rewrite (at_index_Some _ _ contentType) by done.
      auto 10 with bounds.
  - auto 10 with bounds.
  - apply calls_in_bounds_bind; [auto with bounds|]. intros r.
    destruct (negb (playing r)); auto 10 with bounds.
  - auto 10 with bounds.
  - rewrite (at_index_Some _ _ a) by done. auto 10 with bounds.
Qed.


Lemma validateFloat_None (val : string) (min max : float) :
  validateFloat val min max = None →
  ∃ f, ParseFloat val = (f, None) ∧
       (f <? min)%float = false ∧ (max <? f)%float = false.
Proof.
  unfold Main.validateFloat. destruct (ParseFloat val) as [f [e|]]; [done|].
  destruct (f <? min)%float eqn:Hmin; [done|].
  destruct (max <? f)%float eqn:Hmax; [done|]. by exists f.
Qed.

(** X9: [validateFloat] compares with [<] and [>] only, and both are
    false on a NaN: a value that [strconv.ParseFloat] gives as NaN without
    an error passes for any bounds, and [volume] with such an argument is
    accepted. *)
Theorem validateFloat_lets_NaN_through (val : string) (min max f : float) :
  ParseFloat val = (f, None) → is_nan f = true →
  validateFloat val min max = None ∧ accepted "volume" [val].
Proof.
  intros Hparse Hnan.
  assert (∀ lo hi, validateFloat val lo hi = None) as Hany.
  { intros lo hi. unfold Main.validateFloat. rewrite Hparse.
    destruct (nan_is_not_below f lo Hnan) as [-> _].
    by destruct (nan_is_not_below f hi Hnan) as [_ ->]. }
  split; [apply Hany|]. apply accepted_volume. exists val. by rewrite Hany.
Qed.

(** X11: the level that [volume] sends.  [runCommand] parses the
    argument a second time and drops the error; what it sends is the value
    that [checkCommand] validated, a NaN or a number from 0 to 1, unmuted, in
    one [SetVolume] call after [client.Receiver], and at most a
    [log.Fatalln] follows. *)
Theorem volume_sent_is_the_validated_level (args : list string) (st : state) :
  accepted "volume" args →
  ∃ a f out,
    args = [a] ∧ ParseFloat a = (f, None) ∧
    (is_nan f = true ∨ ((0 <=? f)%float = true ∧ (f <=? 1)%float = true)) ∧
    trace _ (runCommand "volume" args st).2 =
      trace _ st ++
        [Called client_Receiver;
         Called (receiver_SetVolume {| Level := Some f; Muted := Some false |})] ++
        out ∧
    (out = [] ∨ ∃ text, out = [Called (log_Fatalln text)]).
Proof.
  intros (a & -> & Hvalid)%accepted_volume.
  destruct (validateFloat_None _ _ _ Hvalid) as (f & Hparse & Hmin & Hmax).
  assert (is_nan f = true ∨ ((0 <=? f)%float = true ∧ (f <=? 1)%float = true))
    as Hlevel.
  { destruct (is_nan f) eqn:Hnan; [by left|right].
    split; [by apply not_below_is_at_least|].
    apply not_below_is_at_least; done. }
  unfold Main.runCommand, Main.bind, Main.calling, Main.at_index, Main.checkErr.
  cbn. rewrite Hparse. cbn.
  destruct (ask client_Receiver (world _ st)) as [r0 w0]. cbn.
  destruct (ask _ w0) as [r1 w1]. cbn.
  destruct (err r1) as [text|]; cbn.
  - unfold Main.bind, Main.calling. cbn.
    destruct (ask (log_Fatalln text) w1) as [r2 w2]. cbn.
    exists a, f, [Called (log_Fatalln text)].
    repeat split; try done; [|eauto].
    destruct (returns r2); cbn; by rewrite <- !app_assoc.
  - exists a, f, []. repeat split; try done; [|by left].
    by rewrite <- !app_assoc.
Qed.

(** X12: [cliCommand] with a command or arguments that [checkCommand]
    refuses sets the debug flag, prints the one message and returns: no
    lookup, no connection, no call on a client. *)
Theorem cliCommand_refused_makes_no_connection (c : Context) (st : state) :
  ¬ accepted (Command_Name c) (Args c) →
  ∃ text,
    cliCommand c st =
      (inl tt,
       {| trace := trace _ st ++ [Called (log_SetDebug (debug c)); Printed text];
          world := (ask (log_SetDebug (debug c)) (world _ st)).2 |}).
Proof.
  intros Hno. unfold Main.cliCommand, Main.bind at 1, Main.calling.
  destruct (ask _ (world _ st)) as [r w]. unfold Main.bind at 1.
  destruct (checkCommand_refused _ _
              {| trace := trace _ st ++ [Called (log_SetDebug (debug c))];
                 world := w |} Hno) as [text ->].
  exists text. cbn. by rewrite <- app_assoc.
Qed.

(** ** Scripts *)

Lemma Split_space_cons (text : string) :
  ∃ field fields, Split_space text = field :: fields.
Proof.
  induction text as [|a rest (field & fields & IH)]; simpl; [by eexists _, _|].
  destruct (Ascii.eqb a " "); [by eexists _, _|]. rewrite IH. by eexists _, _.
Qed.

Lemma scan_cons (text : string) (rest : list string)
    (commands : list (list string)) (st : state) :
  scan (text :: rest) commands st =
  match checkCommand (hd EmptyString (Split_space text))
          (tail (Split_space text)) st with
  | (inl true, st') => scan rest (commands ++ [Split_space text]) st'
  | (inl false, st') => (inl None, st')
  | (inr h, st') => (inr h, st')
  end.
Proof.
  destruct (Split_space_cons text) as (field & fields & Heq).
  cbn [Main.scan]. rewrite Heq. cbn [length Nat.eqb hd tail].
  rewrite (at_index_Some _ _ field) by done. rewrite from_index_1.
  rewrite !bind_ret. unfold Main.bind.
  by destruct (checkCommand field fields st) as [[[]|] st'].
Qed.

Lemma scan_accepted (lines : list string) (commands : list (list string))
    (st : state) :
  Forall line_accepted lines →
  scan lines commands st = (inl (Some (commands ++ map Split_space lines)), st).
Proof.
  intros Hall. revert commands.
  induction Hall as [|text rest Hacc _ IH]; intros commands.
  - simpl. by rewrite app_nil_r.
  - rewrite scan_cons, checkCommand_accepted by done.
    rewrite IH. by rewrite <- app_assoc.
Qed.

Lemma scan_refused (good : list string) (bad : string) (rest : list string)
    (commands : list (list string)) (st : state) :
  Forall line_accepted good → ¬ line_accepted bad →
  ∃ text, scan (good ++ bad :: rest) commands st =
            (inl None,
             {| trace := trace _ st ++ [Printed text]; world := world _ st |}).
Proof.
  intros Hall Hbad. revert commands.
  induction Hall as [|line good Hacc _ IH]; intros commands.
  - simpl app. rewrite scan_cons.
    destruct (checkCommand_refused _ _ st Hbad) as [text ->]. by exists text.
  - simpl app. rewrite scan_cons, checkCommand_accepted by done. apply IH.
Qed.

Lemma run_all_in_bounds (lines : list string) :
  Forall line_accepted lines → calls_in_bounds (run_all (map Split_space lines)).
Proof.
  induction 1 as [|text rest Hacc _ IH]; [apply calls_in_bounds_ret|].
  cbn [map Main.run_all]. unfold Main.line_accepted in Hacc.
  destruct (Split_space_cons text) as (field & fields & Heq).
  rewrite Heq in Hacc |- *. cbn [hd tail] in Hacc.
  rewrite (at_index_Some _ _ field) by done. rewrite from_index_1, !bind_ret.
  apply calls_in_bounds_bind; [|done].
  by apply accepted_command_runs_in_bounds_aux.
Qed.


(** X10: a command that [checkCommand] accepted runs within its
    arguments: [runCommand] never indexes [args] out of range, prints
    nothing (so it never comes to its default case), and only makes
    calls. *)
Theorem accepted_command_runs_in_bounds (cmd : string) (args : list string) :
  accepted cmd args → calls_in_bounds (runCommand cmd args).
Proof. apply accepted_command_runs_in_bounds_aux. Qed.

(** X13: [scriptCommand] checks the whole script before it runs any
    of it.  When a line is refused, the lines accepted before it are not
    run either: the debug flag is set, the message for the first refused
    line is printed and the function returns, without a lookup or a
    connection. *)
Theorem scriptCommand_refuses_the_whole_script (c : Context)
    (good : list string) (bad : string) (rest : list string) (st : state) :
  Forall line_accepted good → ¬ line_accepted bad →
  ∃ text,
    scriptCommand c (good ++ bad :: rest) st =
      (inl tt,
       {| trace := trace _ st ++ [Called (log_SetDebug (debug c)); Printed text];
          world := (ask (log_SetDebug (debug c)) (world _ st)).2 |}).
Proof.
  intros Hall Hbad.
  unfold Main.scriptCommand, Main.bind at 1, Main.calling.
  destruct (ask _ (world _ st)) as [r w]. unfold Main.bind at 1.
  destruct (scan_refused good bad rest []
              {| trace := trace _ st ++ [Called (log_SetDebug (debug c))];
                 world := w |} Hall Hbad) as [text ->].
  exists text. cbn. by rewrite <- app_assoc.
Qed.

(** X14: a script whose lines are all accepted.  Checking it prints
    nothing and calls nothing; [scriptCommand] then connects once and runs
    the commands in the order of the lines, each split at its spaces, and
    running them only makes calls and never indexes out of range. *)
Theorem scriptCommand_checks_before_it_connects (c : Context)
    (lines : list string) (st : state) :
  Forall line_accepted lines →
  scriptCommand c lines st =
    bind (calling (log_SetDebug (debug c)))
      (λ _, bind (connect c) (λ _, run_all (map Split_space lines))) st ∧
  calls_in_bounds (run_all (map Split_space lines)).
Proof.
  intros Hall. split; [|by apply run_all_in_bounds].
  unfold Main.scriptCommand, Main.bind, Main.calling.
  destruct (ask _ (world _ st)) as [r w]. by rewrite scan_accepted.
Qed.

Lemma not_understood (cmd : string) (args : list string) (st : state) :
  minArgs !! cmd = None →
  checkCommand cmd args st =
    (inl false,
     {| trace := trace _ st ++ [Printed ("Command '" +:+ cmd +:+ "' not understood" +:+ nl)];
        world := world _ st |}).
Proof. unfold Main.checkCommand. by intros ->. Qed.

(** X15: [strings.Split] never returns an empty slice, so the
    [continue] of line 130 is never taken, and an empty line is checked as
    the empty command: a script with an empty line after accepted ones is
    refused as not understood and nothing of it runs. *)
Theorem blank_line_ends_the_script (c : Context) (good rest : list string)
    (st : state) :
  Forall line_accepted good →
  (∀ text, length (Split_space text) ≠ 0%nat) ∧
  scriptCommand c (good ++ EmptyString :: rest) st =
    (inl tt,
     {| trace := trace _ st ++
                 [Called (log_SetDebug (debug c));
                  Printed ("Command '' not understood" +:+ nl)];
        world := (ask (log_SetDebug (debug c)) (world _ st)).2 |}).
Proof.
  intros Hall. split.
  { intros text. by destruct (Split_space_cons text) as (? & ? & ->). }
  unfold Main.scriptCommand, Main.bind at 1, Main.calling.
  destruct (ask _ (world _ st)) as [r w]. unfold Main.bind at 1.
  assert (∀ commands st',
            scan (good ++ EmptyString :: rest) commands st' =
              (inl None,
               {| trace := trace _ st' ++
                           [Printed ("Command '' not understood" +:+ nl)];
                  world := world _ st' |})) as ->.
  { clear -Hall. intros commands st'. revert commands.
    induction Hall as [|line good Hacc _ IH]; intros commands; simpl app.
    - rewrite scan_cons. cbn [Split_space hd tail]. by rewrite not_understood.
    - rewrite scan_cons, checkCommand_accepted by done. apply IH. }
  cbn. by rewrite <- app_assoc.
Qed.

End Facts.
End Tool.

(** ** The theorems at work on a device at hand *)

Lemma script_accepted :
  Forall (Main.line_accepted Device.ParseFloat Device.Sprintf_2f) Device.script.
Proof.
  unfold Device.script.
  apply Forall_cons_2; [|apply Forall_cons_2; [|apply Forall_cons_2; [|apply Forall_nil_2]]];
    unfold Main.line_accepted; cbn -[Main.accepted].
  - left. split; [done|by left].
  - right. right. split; [done|]. exists "0.5". split; [done|].
    vm_compute. reflexivity.
  - right. left. split; [auto|done].
Qed.

Lemma validateFloat_lets_NaN_through_witness :
  Main.validateFloat Device.ParseFloat Device.Sprintf_2f "NaN" 0 1 = None ∧
  Main.accepted Device.ParseFloat Device.Sprintf_2f "volume" ["NaN"].
Proof.
  apply (Tool.validateFloat_lets_NaN_through Device.ParseFloat Device.Sprintf_2f
           "NaN" 0 1 nan); vm_compute; reflexivity.
Defined.

Lemma accepted_command_runs_in_bounds_witness :
  Main.accepted Device.ParseFloat Device.Sprintf_2f "play" ["http://192.168.1.2/a.mp3"] ∧
  Main.calls_in_bounds unit
    (Main.runCommand Device.ParseFloat unit Device.ask "play"
       ["http://192.168.1.2/a.mp3"]).
Proof.
  assert (Main.accepted Device.ParseFloat Device.Sprintf_2f "play"
            ["http://192.168.1.2/a.mp3"]) as Hacc.
  { left. split; [reflexivity|left; reflexivity]. }
  split; [exact Hacc|].
  exact (Tool.accepted_command_runs_in_bounds Device.ParseFloat Device.Sprintf_2f
           unit Device.ask "play" ["http://192.168.1.2/a.mp3"] Hacc).
Defined.

Lemma volume_sent_is_the_validated_level_witness :
  Main.accepted Device.ParseFloat Device.Sprintf_2f "volume" ["0.5"] ∧
  ∃ (f : float) (out : list Main.event),
    (is_nan f = true ∨ ((0 <=? f)%float = true ∧ (f <=? 1)%float = true)) ∧
    Main.trace unit
      (Main.runCommand Device.ParseFloat unit Device.ask "volume" ["0.5"]
         Device.start).2 =
      [Main.Called Main.client_Receiver;
       Main.Called (Main.receiver_SetVolume
                      {| Main.Level := Some f; Main.Muted := Some false |})] ++ out.
Proof.
  assert (Main.accepted Device.ParseFloat Device.Sprintf_2f "volume" ["0.5"]) as Hacc.
  { right. right. split; [reflexivity|]. exists "0.5".
    split; [reflexivity|vm_compute; reflexivity]. }
  split; [exact Hacc|].
  destruct (Tool.volume_sent_is_the_validated_level Device.ParseFloat
              Device.Sprintf_2f unit Device.ask ["0.5"] Device.start Hacc)
    as (a & f & out & _ & _ & Hlevel & Htrace & _).
  exists f, out. split; [exact Hlevel|exact Htrace].
Defined.

Lemma cliCommand_refused_makes_no_connection_witness :
  ¬ Main.accepted Device.ParseFloat Device.Sprintf_2f "play" [] ∧
  ∃ text,
    Main.cliCommand Device.ParseFloat Device.Sprintf_2f unit Device.ask
      Device.play_nothing Device.start =
      (inl tt,
       {| Main.trace := [Main.Called (Main.log_SetDebug false); Main.Printed text];
          Main.world := tt |}).
Proof.
  assert (¬ Main.accepted Device.ParseFloat Device.Sprintf_2f "play" []) as Hno.
  { intros [[_ [H|H]]|[[[H|[H|H]] _]|[H _]]]; discriminate H. }
  split; [exact Hno|].
  exact (Tool.cliCommand_refused_makes_no_connection Device.ParseFloat
           Device.Sprintf_2f unit Device.ask Device.play_nothing Device.start Hno).
Defined.

Lemma scriptCommand_refuses_the_whole_script_witness :
  ∃ text,
    Main.scriptCommand Device.ParseFloat Device.Sprintf_2f unit Device.ask
      Device.from_script (Device.script ++ ["louder"; "stop"]) Device.start =
      (inl tt,
       {| Main.trace := [Main.Called (Main.log_SetDebug true); Main.Printed text];
          Main.world := tt |}).
Proof.
  apply (Tool.scriptCommand_refuses_the_whole_script Device.ParseFloat
           Device.Sprintf_2f unit Device.ask Device.from_script Device.script
           "louder" ["stop"] Device.start script_accepted).
  intros [[H _]|[[[H|[H|H]] _]|[H _]]]; discriminate H.
Defined.

Lemma scriptCommand_checks_before_it_connects_witness :
  Main.calls_in_bounds unit
    (Main.run_all Device.ParseFloat unit Device.ask (map Main.Split_space Device.script)).
Proof.
  exact (proj2 (Tool.scriptCommand_checks_before_it_connects Device.ParseFloat
                  Device.Sprintf_2f unit Device.ask Device.from_script Device.script
                  Device.start script_accepted)).
Defined.

Lemma blank_line_ends_the_script_witness :
  Main.scriptCommand Device.ParseFloat Device.Sprintf_2f unit Device.ask
    Device.from_script (Device.script ++ [EmptyString; "stop"]) Device.start =
    (inl tt,
     {| Main.trace := [Main.Called (Main.log_SetDebug true);
                       Main.Printed ("Command '' not understood" +:+ Main.nl)];
        Main.world := tt |}).
Proof.
  exact (proj2 (Tool.blank_line_ends_the_script Device.ParseFloat
                  Device.Sprintf_2f unit Device.ask Device.from_script Device.script
                  ["stop"] Device.start script_accepted)).
Defined.
